(** * goloadbalancer: a shallow embedding of [main.go]

    The program is a reverse proxy that forwards every request to the
    backend chosen by [nextServerLeastActive], brackets the forwarding with
    an increment and a decrement of the backend's connection counter, and
    runs one health-checking goroutine per backend.

    The development follows the source top down: the data ([Server],
    [Config]), [loadConfig], [nextServerLeastActive], and then [main] with
    its goroutines, as a step function over a shared store. *)

From Stdlib Require Import ZArith String List Bool Lia.
From stdpp Require Import base list.
Import ListNotations.
Open Scope string_scope.
Open Scope Z_scope.

(** ** Go's [int]

    [ActiveConnections] is a Go [int]: 64 bits on the usual targets, two's
    complement, and [++] / [--] wrap around silently. *)

Definition intBits : Z := 64.
Definition maxInt : Z := 2 ^ (intBits - 1) - 1.
Definition minInt : Z := - 2 ^ (intBits - 1).

Definition wrapInt (z : Z) : Z :=
  (z + 2 ^ (intBits - 1)) mod 2 ^ intBits - 2 ^ (intBits - 1).

Definition incrInt (z : Z) : Z := wrapInt (z + 1).
Definition decrInt (z : Z) : Z := wrapInt (z - 1).

(** ** The data model *)

(** [type Server struct].  A [*Server] is modelled by the index of the
    server in the pool: [main] appends one fresh [&Server{...}] per
    configured URL and never copies or reorders them.  [Mu] is a
    [*sync.Mutex]: the field holds the address of the mutex, whose state
    (held or free) lives in the store of [State] below. *)
Record Server : Type := mkServer {
  URL : string;
  ActiveConnections : Z;
  Mu : nat;
  Healthy : bool
}.

(** [type Config struct]. *)
Record Config : Type := mkConfig {
  HealthCheckInterval : string;
  Servers : list string;
  ListenPort : string
}.

(** The zero value of [Config], what [var config Config] declares. *)
Definition zeroConfig : Config := mkConfig EmptyString [] EmptyString.

Definition setActiveConnections (n : Z) (s : Server) : Server :=
  mkServer (URL s) n (Mu s) (Healthy s).

Definition setHealthy (h : bool) (s : Server) : Server :=
  mkServer (URL s) (ActiveConnections s) (Mu s) h.

(** ** [nextServerLeastActive] (lines 61-78)

    The accumulator is the pair of locals
    [(leastActiveConnections, leastActiveServer)].  [scanStep] is the body
    of the [for ... range] loop for the server at index [i]; the
    [Lock] / [Unlock] pair around it leaves the mutex as it found it and is
    modelled where goroutines interleave ([handlerStep]). *)

Definition scanStep (i : nat) (server : Server) (acc : Z * nat) : Z * nat :=
  let '(leastActiveConnections, leastActiveServer) := acc in
  if Healthy server then
    if (ActiveConnections server <? leastActiveConnections)
       || (leastActiveConnections =? -1)
    then (ActiveConnections server, i)
    else acc
  else acc.

Fixpoint scanFrom (i : nat) (servers : list Server) (acc : Z * nat) : Z * nat :=
  match servers with
  | [] => acc
  | server :: rest => scanFrom (S i) rest (scanStep i server acc)
  end.

(** The value returned once every [Lock] of the scan has been granted.
    [None] is the run-time panic of [servers[0]] on an empty slice. *)
Definition nextServerLeastActive (servers : list Server) : option nat :=
  match servers with
  | [] => None
  | first :: _ => Some (snd (scanFrom 0 servers (ActiveConnections first, 0%nat)))
  end.

(** Go's [||] evaluates its right operand only when the left one is false:
    the test [leastActiveConnections == -1] of line 69 is evaluated, and is
    true, exactly when [sentinelTrue] holds. *)
Definition sentinelTrue (server : Server) (leastActiveConnections : Z) : bool :=
  Healthy server
  && negb (ActiveConnections server <? leastActiveConnections)
  && (leastActiveConnections =? -1).

(** The scan again, recording whether the sentinel test was ever true. *)
Fixpoint sentinelFrom (i : nat) (servers : list Server) (acc : Z * nat) : bool :=
  match servers with
  | [] => false
  | server :: rest =>
      sentinelTrue server (fst acc) || sentinelFrom (S i) rest (scanStep i server acc)
  end.

Definition sentinelEverTrue (servers : list Server) : bool :=
  match servers with
  | [] => false
  | first :: _ => sentinelFrom 0 servers (ActiveConnections first, 0%nat)
  end.

(** Pools of the scenarios: a health flag and a connection count per entry. *)
Definition backend (i : nat) (h : bool) (n : Z) : Server :=
  mkServer "http://backend" n i h.

Definition scenarioA : list Server :=
  [backend 0 true 2; backend 1 true 0; backend 2 true 5].
Definition scenarioB : list Server :=
  [backend 0 false 0; backend 1 true 3].
Definition scenarioC : list Server :=
  [backend 0 false 0; backend 1 false 0].
Definition scenarioTie : list Server :=
  [backend 0 false 0; backend 1 true 0; backend 2 true 0].
Definition scenarioSentinel : list Server :=
  [backend 0 true (-1); backend 1 true 5].


(** ** The environment

    What the program obtains from the operating system and from Go's
    standard library.  Go's [error] is an optional message, [nil] being
    [None]; a call returning [(value, error)] is a sum.

    - [ReadFile] is [os.ReadFile];
    - [Unmarshal bytes config] is [json.Unmarshal(bytes, &config)]: it
      returns the record as the decoder left it and the error;
    - [ParseDuration] is [time.ParseDuration], in nanoseconds;
    - [ParseURL] is [url.Parse], the parsed URL kept in its string form;
    - [ListenAndServe] is [http.ListenAndServe]: [Some] error when it
      returns (it only returns on failure), [None] when the listener is up
      and serves. *)
Record Env : Type := mkEnv {
  ReadFile : string -> list Byte.byte + string;
  Unmarshal : list Byte.byte -> Config -> Config * option string;
  ParseDuration : string -> Z + string;
  ParseURL : string -> string + string;
  ListenAndServe : string -> option string
}.

(** ** [loadConfig] (lines 42-56) *)
Definition loadConfig (env : Env) (path : string) : Config * option string :=
  let config := zeroConfig in
  match ReadFile env path with
  | inr err => (config, Some err)
  | inl bytes =>
      match Unmarshal env bytes config with
      | (config, Some err) => (config, Some err)
      | (config, None) => (config, None)
      end
  end.

(** ** Goroutines over a shared store

    The store holds the pool (the [Server] records, reached through their
    index) and the mutexes (reached through their address; [true] is
    held).  [sync.Mutex] has no owner and is not reentrant: [Lock] waits
    while the mutex is held, whoever holds it, and [Unlock] of a free
    mutex is a fatal error that ends the process. *)
Record Store : Type := mkStore {
  servers : list Server;
  mutexes : list bool
}.

Definition lockMutex (m : nat) (mu : list bool) : option (list bool) :=
  match mu !! m with
  | Some false => Some (<[m := true]> mu)
  | _ => None
  end.

Definition unlockMutex (m : nat) (mu : list bool) : option (list bool) :=
  match mu !! m with
  | Some true => Some (<[m := false]> mu)
  | _ => None
  end.

(** One step of a goroutine: it waits, it moves (and may log a line), or it
    takes the process down. *)
Inductive Step (Pc : Type) : Type :=
| Blocked
| Moves (sigma : Store) (pc : Pc) (logged : list string)
| Crashes (msg : string).
Arguments Blocked {Pc}.
Arguments Moves {Pc} sigma pc logged.
Arguments Crashes {Pc} msg.

(** [server.Proxy().ServeHTTP(w, r)] (line 131) either returns, having
    relayed the backend's response or written a gateway error, or panics:
    [httputil.ReverseProxy] aborts the handler with [http.ErrAbortHandler]
    when copying the response body fails. *)
Inductive ServeResult : Type := ServeReturns | ServePanics.

(** The program points of the request handler (lines 125-136), with the
    call of [nextServerLeastActive] inlined.  A handler that panics runs
    the deferred calls registered so far and is then recovered by
    [net/http]; the process goes on. *)
Inductive HandlerPc : Type :=
| HEntry                                (* line 126: lines 62-63 *)
| HScanLock (i : nat) (acc : Z * nat)   (* line 67 for servers[i], or loop exit *)
| HScanBody (i : nat) (acc : Z * nat)   (* lines 68-74, the mutex held *)
| HLock (b : nat)                       (* line 127 *)
| HIncr (b : nat)                       (* line 129 *)
| HServe (b : nat)                      (* line 131 *)
| HRelock (b : nat)                     (* line 133 *)
| HDecr (b : nat)                       (* line 135 *)
| HUnlock2 (b : nat)                    (* return: deferred call of line 134 *)
| HUnlock1 (b : nat)                    (* return: deferred call of line 128 *)
| HReturned
| HPanicked.

Definition handlerStep (sigma : Store) (pc : HandlerPc) (r : ServeResult)
  : Step HandlerPc :=
  let withServer (b : nat) (k : Server -> Step HandlerPc) :=
    match servers sigma !! b with
    | Some server => k server
    | None => Crashes "invalid memory address or nil pointer dereference"
    end in
  let lockThen (b : nat) (pc' : HandlerPc) :=
    withServer b (fun server =>
      match lockMutex (Mu server) (mutexes sigma) with
      | Some mu => Moves (mkStore (servers sigma) mu) pc' []
      | None => Blocked
      end) in
  let unlockThen (b : nat) (pc' : HandlerPc) :=
    withServer b (fun server =>
      match unlockMutex (Mu server) (mutexes sigma) with
      | Some mu => Moves (mkStore (servers sigma) mu) pc' []
      | None => Crashes "sync: unlock of unlocked mutex"
      end) in
  match pc with
  | HEntry =>
      match servers sigma with
      | [] => Moves sigma HPanicked []
      | first :: _ => Moves sigma (HScanLock 0 (ActiveConnections first, 0%nat)) []
      end
  | HScanLock i acc =>
      match servers sigma !! i with
      | None => Moves sigma (HLock (snd acc)) []
      | Some _ => lockThen i (HScanBody i acc)
      end
  | HScanBody i acc =>
      withServer i (fun server =>
        unlockThen i (HScanLock (S i) (scanStep i server acc)))
  | HLock b => lockThen b (HIncr b)
  | HIncr b =>
      withServer b (fun server =>
        Moves (mkStore
                 (<[b := setActiveConnections (incrInt (ActiveConnections server)) server]>
                    (servers sigma))
                 (mutexes sigma))
              (HServe b) [])
  | HServe b =>
      match r with
      | ServeReturns => Moves sigma (HRelock b) []
      | ServePanics => unlockThen b HPanicked
      end
  | HRelock b => lockThen b (HDecr b)
  | HDecr b =>
      withServer b (fun server =>
        Moves (mkStore
                 (<[b := setActiveConnections (decrInt (ActiveConnections server)) server]>
                    (servers sigma))
                 (mutexes sigma))
              (HUnlock2 b) [])
  | HUnlock2 b => unlockThen b (HUnlock1 b)
  | HUnlock1 b => unlockThen b HReturned
  | HReturned => Blocked
  | HPanicked => Blocked
  end.

(** [http.Get] returns a response and an error.  On a transport error the
    response is [nil]; both are non-nil only when a redirect policy fails.
    [BodyCloseErr] is what [res.Body.Close()] will return. *)
Record Response : Type := mkResponse {
  StatusCode : Z;
  BodyCloseErr : option string
}.

Record GetResult : Type := mkGetResult {
  getRes : option Response;
  getErr : option string
}.

(** The program points of one health-checking goroutine (lines 103-121). *)
Inductive CheckerPc : Type :=
| CGet                     (* lines 104-105: next tick, then http.Get *)
| CLock (g : GetResult)    (* line 106 *)
| CClose (g : GetResult)   (* lines 108-110 *)
| CSet (g : GetResult)     (* lines 113-117 *)
| CUnlock.                 (* line 119 *)

(** The goroutine of the server at index [s].  [time.Tick] of a
    non-positive duration never ticks.  A panic here is recovered by
    nobody. *)
Definition checkerStep (interval : Z) (sigma : Store) (s : nat)
    (pc : CheckerPc) (g : GetResult) : Step CheckerPc :=
  match servers sigma !! s with
  | None => Crashes "invalid memory address or nil pointer dereference"
  | Some server =>
      match pc with
      | CGet => if 0 <? interval then Moves sigma (CLock g) [] else Blocked
      | CLock g =>
          match lockMutex (Mu server) (mutexes sigma) with
          | Some mu => Moves (mkStore (servers sigma) mu) (CClose g) []
          | None => Blocked
          end
      | CClose g =>
          match getRes g with
          | None => Crashes "invalid memory address or nil pointer dereference"
          | Some res =>
              match BodyCloseErr res with
              | Some err => Moves sigma (CSet g) ["Error closing request body: " ++ err]
              | None => Moves sigma (CSet g) []
              end
          end
      | CSet g =>
          let set (h : bool) :=
            Moves (mkStore (<[s := setHealthy h server]> (servers sigma))
                           (mutexes sigma))
                  CUnlock [] in
          match getErr g with
          | Some _ => set false
          | None =>
              match getRes g with
              | None => Crashes "invalid memory address or nil pointer dereference"
              | Some res => if StatusCode res >=? 500 then set false else set true
              end
          end
      | CUnlock =>
          match unlockMutex (Mu server) (mutexes sigma) with
          | Some mu => Moves (mkStore (servers sigma) mu) CGet []
          | None => Crashes "sync: unlock of unlocked mutex"
          end
      end
  end.

(** The running process: the store, the handler goroutines in the order
    their requests arrived, the health checkers (the one at index [i]
    probes [servers[i]]), the log and whether the process has died. *)
Record State : Type := mkState {
  store : Store;
  interval : Z;
  handlers : list HandlerPc;
  checkers : list CheckerPc;
  logs : list string;
  crashed : bool
}.

(** What the scheduler and the network decide: a request arrives on the
    route [GET /], handler [t] takes a step ([r] is consulted at line 131),
    checker [c] takes a step ([g] is consulted at line 105). *)
Inductive Event : Type :=
| Request
| HandlerRuns (t : nat) (r : ServeResult)
| CheckerRuns (c : nat) (g : GetResult).

(** [None]: the event cannot happen in this state. *)
Definition step (st : State) (ev : Event) : option State :=
  if crashed st then None else
  match ev with
  | Request =>
      Some (mkState (store st) (interval st) (handlers st ++ [HEntry])
                    (checkers st) (logs st) false)
  | HandlerRuns t r =>
      match handlers st !! t with
      | None => None
      | Some pc =>
          match handlerStep (store st) pc r with
          | Blocked => None
          | Moves sigma pc' logged =>
              Some (mkState sigma (interval st) (<[t := pc']> (handlers st))
                            (checkers st) (logs st ++ logged) false)
          | Crashes msg =>
              Some (mkState (store st) (interval st) (handlers st)
                            (checkers st) (logs st ++ [msg]) true)
          end
      end
  | CheckerRuns c g =>
      match checkers st !! c with
      | None => None
      | Some pc =>
          match checkerStep (interval st) (store st) c pc g with
          | Blocked => None
          | Moves sigma pc' logged =>
              Some (mkState sigma (interval st) (handlers st)
                            (<[c := pc']> (checkers st)) (logs st ++ logged) false)
          | Crashes msg =>
              Some (mkState (store st) (interval st) (handlers st)
                            (checkers st) (logs st ++ [msg]) true)
          end
      end
  end.

Fixpoint exec (st : State) (evs : list Event) : option State :=
  match evs with
  | [] => Some st
  | ev :: rest =>
      match step st ev with
      | Some st' => exec st' rest
      | None => None
      end
  end.

(** ** [main] (lines 80-143) *)

(** Lines 91-98: the loop appends one server per URL, each with a fresh
    mutex and [Healthy: true]; [ActiveConnections] has its zero value. *)
Fixpoint parseServers (env : Env) (urls : list string) (pool : list Server)
  : list Server + string :=
  match urls with
  | [] => inl pool
  | serverUrl :: rest =>
      match ParseURL env serverUrl with
      | inr err => inr err
      | inl u => parseServers env rest (pool ++ [mkServer u 0 (length pool) true])
      end
  end.

(** The process once the goroutines of lines 102-122 are started and the
    handler of line 125 is registered. *)
Definition startState (healthCheckInterval : Z) (pool : list Server) : State :=
  mkState (mkStore pool (replicate (length pool) false)) healthCheckInterval
          [] (replicate (length pool) CGet) [] false.

(** [log.Fatalf] ends the process; otherwise [main] stays in
    [http.ListenAndServe] and the process serves. *)
Inductive MainResult : Type :=
| Fatal (msg : string)
| Serving (st : State).

Definition main (env : Env) : MainResult :=
  match loadConfig env "config.jsonc" with
  | (_, Some err) => Fatal ("Error loading configuration: " ++ err)
  | (config, None) =>
      match ParseDuration env (HealthCheckInterval config) with
      | inr err => Fatal ("Error parsing healthCheckInterval: " ++ err)
      | inl healthCheckInterval =>
          match parseServers env (Servers config) [] with
          | inr err => Fatal ("Error parsing servers (server URLs): " ++ err)
          | inl pool =>
              match ListenAndServe env (ListenPort config) with
              | Some err => Fatal ("Error starting server: " ++ err)
              | None => Serving (startState healthCheckInterval pool)
              end
          end
      end
  end.

(** ** Sample inputs

    A filesystem with one file, [config.jsonc], holding [content], which
    the decoder turns into [decoded]; the duration ["10s"]; URLs that
    parse; a port that can be bound. *)
Definition fileEnv (content : string) (decoded : Config) : Env :=
  mkEnv
    (fun path =>
       if String.eqb path "config.jsonc"
       then inl (list_byte_of_string content)
       else inr ("open " ++ path ++ ": no such file or directory"))
    (fun bytes config =>
       if String.eqb (string_of_list_byte bytes) content
       then (decoded, None)
       else (config, Some "invalid character"))
    (fun d =>
       if String.eqb d "10s" then inl 10000000000
       else inr ("time: invalid duration " ++ d))
    (fun u => inl u)
    (fun _ => None).

(** [{}] decodes to the zero [Config]: no server, no interval, no port. *)
Definition emptyConfigEnv : Env := fileEnv "{}" zeroConfig.

(** The configuration file that lists the backends [urls], and what it
    decodes to. *)
Definition quoted (s : string) : string :=
  String (Ascii.ascii_of_nat 34) (s ++ String (Ascii.ascii_of_nat 34) EmptyString).
Definition configJson (urls : list string) : string :=
  "{" ++ quoted "healthCheckInterval" ++ ": " ++ quoted "10s" ++ ", "
      ++ quoted "servers" ++ ": [" ++ String.concat ", " (map quoted urls) ++ "], "
      ++ quoted "listenPort" ++ ": " ++ quoted ":8080" ++ "}".
Definition poolEnv (urls : list string) : Env :=
  fileEnv (configJson urls) (mkConfig "10s" urls ":8080").

(** A well-formed configuration whose server list is empty. *)
Definition emptyPoolEnv : Env := poolEnv [].

(** Configurations with one, two and three backends, and the processes
    [main] starts from them. *)
Definition onePoolEnv : Env := poolEnv ["http://127.0.0.1:9001"].
Definition twoPoolEnv : Env :=
  poolEnv ["http://127.0.0.1:9001"; "http://127.0.0.1:9002"].
Definition threePoolEnv : Env :=
  poolEnv ["http://127.0.0.1:9001"; "http://127.0.0.1:9002"; "http://127.0.0.1:9003"].

Definition onePool : list Server := [mkServer "http://127.0.0.1:9001" 0 0 true].
Definition twoPool : list Server :=
  onePool ++ [mkServer "http://127.0.0.1:9002" 0 1 true].
Definition threePool : list Server :=
  twoPool ++ [mkServer "http://127.0.0.1:9003" 0 2 true].

Definition oneState : State := startState 10000000000 onePool.
Definition twoState : State := startState 10000000000 twoPool.
Definition threeState : State := startState 10000000000 threePool.

(** A probe that could not connect, and probes that were answered. *)
Definition probeRefused : GetResult :=
  mkGetResult None (Some "connection refused").
Definition probeStatus (code : Z) : GetResult :=
  mkGetResult (Some (mkResponse code None)) None.

(** The schedule of one request served alone: its arrival and [n] steps of
    its handler, the goroutine at index [t]. *)
Definition solo (t : nat) (r : ServeResult) (n : nat) : list Event :=
  Request :: replicate n (HandlerRuns t r).

(** One whole iteration of the health checker of [servers[c]] on the
    probe result [g]. *)
Definition probe (c : nat) (g : GetResult) : list Event :=
  replicate 5 (CheckerRuns c g).

(** What the scenarios look at in a state: the handlers, and the flag and
    the count of every server. *)
Definition view (st : State) : list HandlerPc * list bool * list Z :=
  (handlers st, Healthy <$> servers (store st),
   ActiveConnections <$> servers (store st)).

Definition isRequest (ev : Event) : bool :=
  match ev with Request => true | _ => false end.

(** The number of requests that arrive in a schedule. *)
Definition requests (evs : list Event) : nat :=
  length (List.filter isRequest evs).


(** ** Invariants of the running process *)

(** How many elements of a list pass a test. *)
Fixpoint countP {A : Type} (P : A -> bool) (l : list A) : Z :=
  match l with
  | [] => 0
  | x :: rest => Z.b2z (P x) + countP P rest
  end.

(** Every server has a mutex of its own: the one at its own index. *)
Definition wfStore (sigma : Store) : Prop :=
  length (mutexes sigma) = length (servers sigma)
  /\ forall i s, servers sigma !! i = Some s -> Mu s = i.

(** The program points at which a handler is between a [Lock] of mutex
    [m] that was granted and the matching [Unlock]. *)
Definition handlerHolds (m : nat) (pc : HandlerPc) : bool :=
  match pc with
  | HScanBody i _ => Nat.eqb i m
  | HIncr b | HServe b | HRelock b | HDecr b | HUnlock2 b | HUnlock1 b =>
      Nat.eqb b m
  | _ => false
  end.

Definition checkerHolds (pc : CheckerPc) : bool :=
  match pc with
  | CClose _ | CSet _ | CUnlock => true
  | _ => false
  end.

(** The number of goroutines between [Lock] and [Unlock] of mutex [m]. *)
Definition holders (st : State) (m : nat) : Z :=
  countP (handlerHolds m) (handlers st)
  + match checkers st !! m with
    | Some pc => Z.b2z (checkerHolds pc)
    | None => 0
    end.

(** The program points after the second [Lock] (line 133) was granted. *)
Definition pastRelock (pc : HandlerPc) : bool :=
  match pc with
  | HDecr _ | HUnlock2 _ | HUnlock1 _ | HReturned => true
  | _ => false
  end.

(** The program points after line 129, and the handlers that panicked. *)
Definition pastIncrement (pc : HandlerPc) : bool :=
  match pc with
  | HServe _ | HRelock _ | HDecr _ | HUnlock2 _ | HUnlock1 _
  | HReturned | HPanicked => true
  | _ => false
  end.

Record Inv (st : State) : Prop := mkInv {
  inv_wf : wfStore (store st);
  inv_mutex : forall m,
    holders st m = match mutexes (store st) !! m with
                   | Some true => 1
                   | _ => 0
                   end;
  inv_relock : Forall (fun pc => pastRelock pc = false) (handlers st);
  inv_count :
    Z.of_nat (length (handlers st)) <= maxInt ->
    Forall (fun s => 0 <= ActiveConnections s
                     <= countP pastIncrement (handlers st))
           (servers (store st))
}.

(** What one step of a handler does to the store and to what it holds. *)
Inductive HandlerMove (sigma : Store) (pc : HandlerPc)
  : Store -> HandlerPc -> Prop :=
| move_local pc' :
    (forall m, handlerHolds m pc' = handlerHolds m pc) ->
    (pastIncrement pc = true -> pastIncrement pc' = true) ->
    HandlerMove sigma pc sigma pc'
| move_acquire m pc' :
    mutexes sigma !! m = Some false ->
    (forall m', handlerHolds m' pc = false) ->
    (forall m', handlerHolds m' pc' = Nat.eqb m m') ->
    (pastIncrement pc = true -> pastIncrement pc' = true) ->
    HandlerMove sigma pc (mkStore (servers sigma) (<[m := true]> (mutexes sigma))) pc'
| move_release m pc' :
    mutexes sigma !! m = Some true ->
    (forall m', handlerHolds m' pc = Nat.eqb m m') ->
    (forall m', handlerHolds m' pc' = false) ->
    (pastIncrement pc = true -> pastIncrement pc' = true) ->
    HandlerMove sigma pc (mkStore (servers sigma) (<[m := false]> (mutexes sigma))) pc'
| move_incr b s :
    pc = HIncr b ->
    servers sigma !! b = Some s ->
    HandlerMove sigma pc
      (mkStore (<[b := setActiveConnections (incrInt (ActiveConnections s)) s]>
                  (servers sigma))
               (mutexes sigma))
      (HServe b).


(** A pool as lines 91-98 leave it: the server at index [i] has the mutex
    at address [i], no connection, and is taken to be healthy. *)
Definition freshPool (pool : list Server) : Prop :=
  forall i s, pool !! i = Some s ->
    Mu s = i /\ ActiveConnections s = 0 /\ Healthy s = true.

(** [n] requests in a row, each served alone by a handler whose
    forwarding panics. *)
Definition panickingRequests (n : nat) : list Event :=
  flat_map (fun t => solo t ServePanics 7) (seq 0 n).


(** ** Further sample inputs *)

(** The environment [env] with another URL parser. *)
Definition withParseURL (parse : string -> string + string) (env : Env) : Env :=
  mkEnv (ReadFile env) (Unmarshal env) (ParseDuration env) parse
        (ListenAndServe env).

(** Three configured backends, the second of which is no URL. *)
Definition badUrlEnv : Env :=
  withParseURL
    (fun u => if String.eqb u ":9002"
              then inr "missing protocol scheme" else inl u)
    (poolEnv ["http://127.0.0.1:9001"; ":9002"; "http://127.0.0.1:9003"]).

(** One backend and the interval ["0s"]. *)
Definition zeroIntervalJson : string :=
  "{" ++ quoted "healthCheckInterval" ++ ": " ++ quoted "0s" ++ ", "
      ++ quoted "servers" ++ ": [" ++ quoted "http://127.0.0.1:9001" ++ "], "
      ++ quoted "listenPort" ++ ": " ++ quoted ":8080" ++ "}".
Definition zeroIntervalEnv : Env :=
  mkEnv
    (fun path =>
       if String.eqb path "config.jsonc"
       then inl (list_byte_of_string zeroIntervalJson)
       else inr ("open " ++ path ++ ": no such file or directory"))
    (fun bytes config =>
       if String.eqb (string_of_list_byte bytes) zeroIntervalJson
       then (mkConfig "0s" ["http://127.0.0.1:9001"] ":8080", None)
       else (config, Some "invalid character"))
    (fun d =>
       if String.eqb d "0s" then inl 0
       else inr ("time: invalid duration " ++ d))
    (fun u => inl u)
    (fun _ => None).


Definition isHandlerRun (ev : Event) : bool :=
  match ev with HandlerRuns _ _ => true | _ => false end.

Definition isCheckerRun (ev : Event) : bool :=
  match ev with CheckerRuns _ _ => true | _ => false end.


(** ** Pointers and responses the goroutines rely on *)

(** A handler only holds pointers to servers of the pool of [n] servers. *)
Definition validHandler (n : nat) (pc : HandlerPc) : Prop :=
  match pc with
  | HEntry | HReturned | HPanicked => True
  | HScanLock _ acc => (snd acc < n)%nat
  | HScanBody i acc => (i < n)%nat /\ (snd acc < n)%nat
  | HLock b | HIncr b | HServe b | HRelock b
  | HDecr b | HUnlock2 b | HUnlock1 b => (b < n)%nat
  end.

(** A health checker that has got past line 108 has a response. *)
Definition validChecker (pc : CheckerPc) : Prop :=
  match pc with
  | CSet g => getRes g <> None
  | _ => True
  end.

Record Valid (st : State) : Prop := mkValid {
  valid_handlers :
    Forall (validHandler (length (servers (store st)))) (handlers st);
  valid_length : length (checkers st) = length (servers (store st));
  valid_checkers : Forall validChecker (checkers st)
}.


(** The pool of one backend when its health checker holds the mutex and
    is about to close the body of a probe that was refused. *)
Definition refusedState : State :=
  mkState (mkStore onePool [true]) 10000000000 [] [CClose probeRefused] [] false.


(** The program points of a handler whose scan has not yet got past the
    server at index [b]. *)
Definition scansUpTo (b : nat) (pc : HandlerPc) : Prop :=
  match pc with
  | HEntry => True
  | HScanLock i _ => (i <= b)%nat
  | HScanBody i _ => (i < b)%nat
  | _ => False
  end.


(** The handler [t] waits at line 133 for the mutex of the server [b], in
    a state that has the invariants of the process. *)
Definition waits (t b : nat) (st : State) : Prop :=
  Inv st /\ Valid st /\ handlers st !! t = Some (HRelock b).


(** * Properties *)

Close Scope string_scope.

(** ** Go's [int] *)

Lemma wrapInt_small (z : Z) : minInt <= z <= maxInt -> wrapInt z = z.
Proof.
  unfold wrapInt, minInt, maxInt, intBits. intros H.
  rewrite Z.mod_small; lia.
Qed.

Lemma wrapInt_idem (z k : Z) : wrapInt (wrapInt z + k) = wrapInt (z + k).
Proof.
  unfold wrapInt, intBits.
  replace ((z + 2 ^ (64 - 1)) mod 2 ^ 64 - 2 ^ (64 - 1) + k + 2 ^ (64 - 1))
    with ((z + 2 ^ (64 - 1)) mod 2 ^ 64 + k) by lia.
  replace (z + k + 2 ^ (64 - 1)) with ((z + 2 ^ (64 - 1)) + k) by lia.
  rewrite Zplus_mod_idemp_l. reflexivity.
Qed.

Lemma incrInt_max : incrInt maxInt = minInt.
Proof. reflexivity. Qed.

(** ** The scan of [nextServerLeastActive] *)

Section Scan.

Implicit Types (pool pre rest : list Server) (acc : Z * nat).

Lemma scanStep_unhealthy i s acc :
  Healthy s = false -> scanStep i s acc = acc.
Proof. intros H. unfold scanStep. destruct acc. now rewrite H. Qed.

Lemma scanFrom_unhealthy rest : forall i acc,
  Forall (fun s => Healthy s = false) rest -> scanFrom i rest acc = acc.
Proof.
  induction rest as [|s rest IH]; intros i acc H; [reflexivity|].
  inversion H; subst. simpl. rewrite scanStep_unhealthy by assumption.
  now apply IH.
Qed.

(** Away from the sentinel value the body of the loop keeps the smaller
    of the two counts. *)
Lemma scanStep_cases i s l b :
  l <> -1 ->
  scanStep i s (l, b) =
    if Healthy s && (ActiveConnections s <? l)
    then (ActiveConnections s, i) else (l, b).
Proof.
  intros Hl. unfold scanStep.
  destruct (Healthy s); [|reflexivity]. simpl.
  destruct (Z.eqb_spec l (-1)); [contradiction|].
  now rewrite orb_false_r.
Qed.

(** The loop invariant for counts that are never negative: the
    accumulator names a server of the pool together with its count; this
    server is the seed of line 63 or a healthy one; its count is below the
    count of every healthy server seen so far, and no healthy server seen
    before it has the same count. *)
Lemma scanFrom_least pool : forall rest pre l b,
  pool = pre ++ rest ->
  Forall (fun s => 0 <= ActiveConnections s) pool ->
  (b <= length pre)%nat ->
  (exists sb, pool !! b = Some sb /\ ActiveConnections sb = l
              /\ (b = 0%nat \/ Healthy sb = true)) ->
  (forall j sj, pre !! j = Some sj -> Healthy sj = true ->
                l <= ActiveConnections sj
                /\ (ActiveConnections sj = l -> (b <= j)%nat)) ->
  exists sb, pool !! snd (scanFrom (length pre) rest (l, b)) = Some sb
    /\ (snd (scanFrom (length pre) rest (l, b)) = 0%nat \/ Healthy sb = true)
    /\ forall j sj, pool !! j = Some sj -> Healthy sj = true ->
         ActiveConnections sb <= ActiveConnections sj
         /\ (ActiveConnections sj = ActiveConnections sb ->
             (snd (scanFrom (length pre) rest (l, b)) <= j)%nat).
Proof.
  induction rest as [|s rest IH]; intros pre l b Hpool Hnn Hle Hb Hpre.
  - simpl. destruct Hb as (sb & Hsb & Hl & Hh). exists sb.
    rewrite app_nil_r in Hpool. subst pool l. auto.
  - cbn [scanFrom].
    assert (Hl : l <> -1).
    { destruct Hb as (sb & Hsb & Hl & _). rewrite Forall_lookup in Hnn.
      specialize (Hnn _ _ Hsb). simpl in Hnn. lia. }
    rewrite scanStep_cases by assumption.
    assert (Hs : pool !! length pre = Some s).
    { subst pool. now rewrite list_lookup_middle. }
    assert (Hpool' : pool = (pre ++ [s]) ++ rest).
    { now rewrite <- app_assoc. }
    assert (Hlen : length (pre ++ [s]) = S (length pre)).
    { rewrite length_app. simpl. lia. }
    rewrite <- Hlen.
    destruct (Healthy s) eqn:Hh; simpl;
      [destruct (Z.ltb_spec (ActiveConnections s) l)|].
    + apply IH; try assumption; [lia| |].
      * exists s. auto.
      * intros j sj Hj Hhj. apply lookup_snoc_Some in Hj.
        destruct Hj as [[Hlt Hj]|[-> <-]]; [|split; lia].
        destruct (Hpre _ _ Hj Hhj). split; lia.
    + apply IH; try assumption; [lia|].
      intros j sj Hj Hhj. apply lookup_snoc_Some in Hj.
      destruct Hj as [[Hlt Hj]|[-> <-]]; [now apply Hpre|split; lia].
    + apply IH; try assumption; [lia|].
      intros j sj Hj Hhj. apply lookup_snoc_Some in Hj.
      destruct Hj as [[Hlt Hj]|[-> <-]]; [now apply Hpre|congruence].
Qed.

(** With counts that are never negative the local
    [leastActiveConnections] is never [-1], at any iteration. *)
Lemma sentinelFrom_nonneg rest : forall i l b,
  0 <= l ->
  Forall (fun s => 0 <= ActiveConnections s) rest ->
  sentinelFrom i rest (l, b) = false.
Proof.
  induction rest as [|s rest IH]; intros i l b Hl Hnn; [reflexivity|].
  inversion Hnn as [|? ? Hs Hrest]; subst. cbn [sentinelFrom fst].
  assert (Hm : l <> -1) by lia.
  rewrite scanStep_cases by assumption.
  unfold sentinelTrue.
  destruct (Z.eqb_spec l (-1)); [contradiction|].
  rewrite andb_false_r. simpl.
  destruct (Healthy s && (ActiveConnections s <? l)); now apply IH.
Qed.

End Scan.

(** C2: on scenario B, [(unhealthy, 0), (healthy, 3)], the seed of line 62
    is the count of the unhealthy first entry, the healthy entry at index 1
    is not strictly below it, and the unhealthy entry is returned.  The
    same happens in the process [main] starts with two backends: once the
    first has answered a probe with status 500, the next request is still
    counted on it and forwarded to it, the second being healthy and idle. *)
Theorem nextServerLeastActive_scenarioB_unhealthy :
  nextServerLeastActive scenarioB = Some 0%nat
  /\ Healthy <$> scenarioB = [false; true]
  /\ main twoPoolEnv = Serving twoState
  /\ view <$> exec twoState (probe 0 (probeStatus 500) ++ solo 0 ServeReturns 8)
     = Some ([HServe 0], [false; true], [1; 0]).
Proof. repeat apply conj; vm_compute; reflexivity. Qed.

(** C3, as stated, fails on scenario C, [(unhealthy, 0), (unhealthy, 0)]:
    selection has a result, the unhealthy first entry, and no failure; the
    handler counts a connection on that entry and forwards to it. *)
Lemma nextServerLeastActive_scenarioC_no_failure :
  Forall (fun s => Healthy s = false) scenarioC
  /\ nextServerLeastActive scenarioC = Some 0%nat
  /\ Healthy <$> scenarioC !! 0%nat = Some false
  /\ main twoPoolEnv = Serving twoState
  /\ view <$> exec twoState (probe 0 (probeStatus 500) ++ probe 1 (probeStatus 503)
                             ++ solo 0 ServeReturns 8)
     = Some ([HServe 0], [false; false], [1; 0]).
Proof.
  split; [repeat constructor|]. repeat apply conj; vm_compute; reflexivity.
Qed.

(** C4, as stated, fails on [(healthy, -1), (healthy, 5)]: the test
    [leastActiveConnections == -1] lets the second entry displace the
    first, whose count is smaller. *)
Lemma nextServerLeastActive_sentinel_not_least :
  nextServerLeastActive scenarioSentinel = Some 1%nat
  /\ ActiveConnections <$> scenarioSentinel !! 1%nat = Some 5
  /\ ActiveConnections <$> scenarioSentinel !! 0%nat = Some (-1)
  /\ Healthy <$> scenarioSentinel !! 0%nat = Some true
  /\ ~ (forall b sb j sj,
          nextServerLeastActive scenarioSentinel = Some b ->
          scenarioSentinel !! b = Some sb ->
          scenarioSentinel !! j = Some sj -> Healthy sj = true ->
          ActiveConnections sb <= ActiveConnections sj).
Proof.
  repeat split; try reflexivity.
  intros H.
  specialize (H 1%nat (backend 1 true 5) 0%nat (backend 0 true (-1))
                eq_refl eq_refl eq_refl eq_refl).
  simpl in H. lia.
Qed.

(** C4, amended: for every non-empty pool with at least one healthy server
    in which no count is negative, the server returned by
    [nextServerLeastActive] has a count less than or equal to the count of
    every healthy server. *)
Theorem nextServerLeastActive_least (pool : list Server) :
  pool <> [] ->
  Exists (fun s => Healthy s = true) pool ->
  Forall (fun s => 0 <= ActiveConnections s) pool ->
  exists b sb,
    nextServerLeastActive pool = Some b /\ pool !! b = Some sb
    /\ forall j sj, pool !! j = Some sj -> Healthy sj = true ->
                    ActiveConnections sb <= ActiveConnections sj.
Proof.
  intros Hne _ Hnn. destruct pool as [|first rest]; [contradiction|].
  unfold nextServerLeastActive.
  destruct (scanFrom_least (first :: rest) (first :: rest) []
              (ActiveConnections first) 0%nat) as (sb & Hsb & _ & Hmin);
    try easy.
  - exists first. auto.
  - exists (snd (scanFrom 0 (first :: rest) (ActiveConnections first, 0%nat))), sb.
    split; [reflexivity|]. split; [exact Hsb|].
    intros j sj Hj Hh. exact (proj1 (Hmin j sj Hj Hh)).
Qed.

Lemma nextServerLeastActive_least_witness :
  exists b sb,
    nextServerLeastActive scenarioA = Some b /\ scenarioA !! b = Some sb
    /\ forall j sj, scenarioA !! j = Some sj -> Healthy sj = true ->
                    ActiveConnections sb <= ActiveConnections sj.
Proof.
  apply (nextServerLeastActive_least scenarioA).
  - discriminate.
  - apply Exists_cons_hd. reflexivity.
  - unfold scenarioA, backend. repeat constructor; simpl; lia.
Defined.

(** X22: the selection is the one the comments of the source describe as
    soon as the first server of the pool is healthy: the server returned is
    healthy, its count is the least among the healthy servers, and it is
    the earliest of those that have this count. *)
Lemma nextServerLeastActive_first_healthy (first : Server) (rest : list Server) :
  Healthy first = true ->
  Forall (fun s => 0 <= ActiveConnections s) (first :: rest) ->
  exists b sb,
    nextServerLeastActive (first :: rest) = Some b
    /\ (first :: rest) !! b = Some sb
    /\ Healthy sb = true
    /\ forall j sj, (first :: rest) !! j = Some sj -> Healthy sj = true ->
         ActiveConnections sb <= ActiveConnections sj
         /\ (ActiveConnections sj = ActiveConnections sb -> (b <= j)%nat).
Proof.
  intros Hfirst Hnn. unfold nextServerLeastActive.
  destruct (scanFrom_least (first :: rest) (first :: rest) []
              (ActiveConnections first) 0%nat) as (sb & Hsb & Hh & Hmin);
    try easy.
  - exists first. auto.
  - change (length (@nil Server)) with 0%nat in *.
    exists (snd (scanFrom 0 (first :: rest) (ActiveConnections first, 0%nat))), sb.
    split; [reflexivity|]. split; [exact Hsb|]. split; [|exact Hmin].
    destruct Hh as [Hz|Hh]; [|exact Hh].
    rewrite Hz in Hsb. simpl in Hsb. now injection Hsb as <-.
Qed.

(** C7: on [(unhealthy, 0), (healthy, 0), (healthy, 0)] the two healthy
    servers are tied at the minimum count; the earliest of them is at
    index 1, and the unhealthy entry at index 0 is returned.  The process
    [main] starts with three backends is in this state once the first has
    answered a probe with status 500, and forwards the next request to
    it. *)
Theorem nextServerLeastActive_scenarioTie_unhealthy :
  nextServerLeastActive scenarioTie = Some 0%nat
  /\ Healthy <$> scenarioTie = [false; true; true]
  /\ ActiveConnections <$> scenarioTie = [0; 0; 0]
  /\ main threePoolEnv = Serving threeState
  /\ view <$> exec threeState (probe 0 (probeStatus 500))
     = Some ([], [false; true; true], [0; 0; 0])
  /\ view <$> exec threeState (probe 0 (probeStatus 500) ++ solo 0 ServeReturns 10)
     = Some ([HServe 0], [false; true; true], [1; 0; 0]).
Proof. repeat apply conj; vm_compute; reflexivity. Qed.

(** C8: for every non-empty pool in which every count is at least 0, the
    test [leastActiveConnections == -1] of line 69 is never true during
    the scan. *)
Theorem sentinel_never_true (pool : list Server) :
  pool <> [] ->
  Forall (fun s => 0 <= ActiveConnections s) pool ->
  sentinelEverTrue pool = false.
Proof.
  intros Hne Hnn. destruct pool as [|first rest]; [contradiction|].
  unfold sentinelEverTrue. apply sentinelFrom_nonneg; [|assumption].
  now inversion Hnn.
Qed.

Lemma sentinel_never_true_witness : sentinelEverTrue scenarioA = false.
Proof.
  apply (sentinel_never_true scenarioA).
  - discriminate.
  - unfold scenarioA, backend. repeat constructor; simpl; lia.
Defined.

(** The sentinel test does fire once a count is [-1]. *)
Example sentinel_true_scenarioSentinel :
  sentinelEverTrue scenarioSentinel = true.
Proof. reflexivity. Qed.

Example select_scenarioA : nextServerLeastActive scenarioA = Some 1%nat.
Proof. reflexivity. Qed.

(** ** [loadConfig] *)

(** C10: [loadConfig] returns an error exactly when reading the file fails
    or decoding fails, and whatever record a successful decoding leaves
    (empty server list, empty interval, empty port included) is returned
    as it is, without error. *)
Theorem loadConfig_errors (env : Env) (path : string) :
  (snd (loadConfig env path) <> None <->
     (exists err, ReadFile env path = inr err)
     \/ (exists bytes, ReadFile env path = inl bytes
                       /\ snd (Unmarshal env bytes zeroConfig) <> None))
  /\ (forall bytes config,
        ReadFile env path = inl bytes ->
        Unmarshal env bytes zeroConfig = (config, None) ->
        loadConfig env path = (config, None)).
Proof.
  unfold loadConfig. split.
  - destruct (ReadFile env path) as [bytes|err]; simpl.
    + destruct (Unmarshal env bytes zeroConfig) as [config [err|]] eqn:Hu;
        simpl; split.
      * intros _. right. exists bytes. rewrite Hu. now split.
      * discriminate.
      * contradiction.
      * intros [[err Herr]|(bytes' & Hb & Herr)]; [discriminate|].
        injection Hb as <-. now rewrite Hu in Herr.
    + split; [|discriminate]. intros _. left. now exists err.
  - intros bytes config -> ->. reflexivity.
Qed.

Lemma loadConfig_errors_witness :
  loadConfig emptyConfigEnv "config.jsonc"
  = (mkConfig EmptyString [] EmptyString, None).
Proof.
  apply (proj2 (loadConfig_errors emptyConfigEnv "config.jsonc")
               (list_byte_of_string "{}")); reflexivity.
Defined.

Example loadConfig_missing_file :
  snd (loadConfig emptyConfigEnv "other.json") <> None.
Proof. discriminate. Qed.

(** ** [main] *)

(** C6, as stated, fails for a configuration with an empty server list:
    [main] does not abort, the process serves with an empty pool, and the
    first request reaches [servers[0]] in [nextServerLeastActive]. *)
Lemma main_empty_pool_serves :
  Servers (fst (loadConfig emptyPoolEnv "config.jsonc")) = []
  /\ main emptyPoolEnv = Serving (startState 10000000000 [])
  /\ nextServerLeastActive [] = None
  /\ handlers <$> exec (startState 10000000000 []) (solo 0 ServeReturns 1)
     = Some [HPanicked].
Proof. repeat apply conj; vm_compute; reflexivity. Qed.

(** C6, amended: an empty backend pool does not make the process abort at
    startup.  When the configuration loads with an empty server list, the
    interval parses and the listener can be started, [main] serves with an
    empty pool and no health checker, and a request then reaches selection
    over the empty pool, where the handler panics. *)
Theorem main_empty_pool (env : Env) (config : Config) (healthCheckInterval : Z)
    (r : ServeResult) :
  loadConfig env "config.jsonc" = (config, None) ->
  Servers config = [] ->
  ParseDuration env (HealthCheckInterval config) = inl healthCheckInterval ->
  ListenAndServe env (ListenPort config) = None ->
  main env = Serving (startState healthCheckInterval [])
  /\ checkers (startState healthCheckInterval []) = []
  /\ exec (startState healthCheckInterval []) (solo 0 r 1)
     = Some (mkState (mkStore [] []) healthCheckInterval [HPanicked] [] [] false).
Proof.
  intros Hload Hservers Hdur Hlisten. unfold main.
  rewrite Hload, Hdur, Hservers. simpl. rewrite Hlisten.
  repeat split.
Qed.

Lemma main_empty_pool_witness :
  main emptyPoolEnv = Serving (startState 10000000000 [])
  /\ checkers (startState 10000000000 []) = []
  /\ exec (startState 10000000000 []) (solo 0 ServeReturns 1)
     = Some (mkState (mkStore [] []) 10000000000 [HPanicked] [] [] false).
Proof.
  apply (main_empty_pool emptyPoolEnv (mkConfig "10s" [] ":8080") 10000000000
           ServeReturns);
    reflexivity.
Defined.

(** X19: [main] aborts exactly on the four errors it checks: the
    configuration cannot be loaded, the interval or a backend URL cannot
    be parsed, or the listener cannot be started.  Nothing else in the
    configuration stops it. *)
Lemma main_fatal (env : Env) :
  (exists msg, main env = Fatal msg) <->
    snd (loadConfig env "config.jsonc") <> None
    \/ (exists err, ParseDuration env
          (HealthCheckInterval (fst (loadConfig env "config.jsonc"))) = inr err)
    \/ (exists err, parseServers env
          (Servers (fst (loadConfig env "config.jsonc"))) [] = inr err)
    \/ ListenAndServe env
          (ListenPort (fst (loadConfig env "config.jsonc"))) <> None.
Proof.
  unfold main.
  destruct (loadConfig env "config.jsonc") as [config [err|]]; simpl.
  { split; [intros _; left; discriminate|eauto]. }
  destruct (ParseDuration env _) as [d|err].
  2:{ split; eauto 6. }
  destruct (parseServers env _ _) as [pool|err].
  2:{ split; eauto 6. }
  destruct (ListenAndServe env _) as [err|].
  { split; [intros _; do 3 right; discriminate|eauto]. }
  split.
  - intros [msg H]. discriminate.
  - intros [H|[[err H]|[[err H]|H]]]; congruence.
Qed.

(** ** The health checker *)

Section Checker.

Variables (st : State) (c : nat) (server : Server) (g : GetResult).
Hypothesis Halive : crashed st = false.
Hypothesis Hticks : 0 < interval st.
Hypothesis Hpc : checkers st !! c = Some CGet.
Hypothesis Hserver : servers (store st) !! c = Some server.
Hypothesis Hfree : mutexes (store st) !! Mu server = Some false.

(** X7: a probe that comes back without a response, whatever the error:
    the goroutine takes the mutex and dereferences the nil response at
    line 108; the process dies with the mutex held and the flag, the
    counts and the handlers as they were. *)
Lemma checker_no_response :
  getRes g = None ->
  exec st (replicate 3 (CheckerRuns c g))
  = Some (mkState (mkStore (servers (store st))
                           (<[Mu server := true]> (mutexes (store st))))
                  (interval st) (handlers st)
                  (<[c := CClose g]> (checkers st))
                  (logs st ++ ["invalid memory address or nil pointer dereference"%string])
                  true).
Proof.
  intros Hres. destruct st as [[pool mu] iv hs cs lg dead]. simpl in *.
  subst dead.
  assert (Hc : (c < length cs)%nat) by (eapply lookup_lt_Some; eauto).
  unfold step, checkerStep, lockMutex. simpl.
  rewrite Hpc, Hserver. simpl.
  destruct (Z.ltb_spec 0 iv); [|lia]. simpl.
  rewrite list_lookup_insert_eq by assumption. rewrite Hserver, Hfree. simpl.
  rewrite list_lookup_insert_eq by (now rewrite length_insert).
  rewrite Hserver, Hres. simpl.
  rewrite !list_insert_insert_eq, !app_nil_r. reflexivity.
Qed.

(** X6: a probe that comes back with a response: the iteration ends with
    the mutex released and the flag of the probed server cleared when
    there is an error or the status is 500 or more, and set otherwise;
    nothing else in the store changes, and only a failure to close the
    body is logged. *)
Lemma checker_response (res : Response) :
  getRes g = Some res ->
  exec st (probe c g)
  = Some (mkState
            (mkStore (<[c := setHealthy
                               (match getErr g with
                                | Some _ => false
                                | None => negb (StatusCode res >=? 500)
                                end) server]> (servers (store st)))
                     (mutexes (store st)))
            (interval st) (handlers st) (checkers st)
            (logs st ++ match BodyCloseErr res with
                        | Some err => [("Error closing request body: " ++ err)%string]
                        | None => []
                        end)
            false).
Proof.
  intros Hres. destruct st as [[pool mu] iv hs cs lg dead]. simpl in *.
  subst dead.
  assert (Hc : (c < length cs)%nat) by (eapply lookup_lt_Some; eauto).
  assert (Hs : (c < length pool)%nat) by (eapply lookup_lt_Some; eauto).
  assert (Hm : (Mu server < length mu)%nat) by (eapply lookup_lt_Some; eauto).
  unfold probe, step, checkerStep, lockMutex, unlockMutex. simpl.
  rewrite Hpc, Hserver. simpl.
  destruct (Z.ltb_spec 0 iv); [|lia]. simpl.
  rewrite list_lookup_insert_eq by assumption. rewrite Hserver, Hfree. simpl.
  rewrite list_lookup_insert_eq by (now rewrite length_insert).
  rewrite Hserver, Hres. simpl.
  assert (Hback : <[Mu server := false]> (<[Mu server := true]> mu) = mu).
  { rewrite list_insert_insert_eq. now apply list_insert_id. }
  assert (Hcs : forall pc1 pc2 pc3 pc4,
    <[c := CGet]> (<[c := pc1]> (<[c := pc2]> (<[c := pc3]> (<[c := pc4]> cs)))) = cs).
  { intros. rewrite !list_insert_insert_eq. now apply list_insert_id. }
  destruct (BodyCloseErr res) as [cerr|]; simpl;
    (rewrite list_lookup_insert_eq by (now rewrite !length_insert));
    rewrite Hserver, Hres; simpl;
    destruct (getErr g) as [gerr|]; simpl;
    try destruct (StatusCode res >=? 500); simpl;
    (rewrite list_lookup_insert_eq by (now rewrite !length_insert));
    rewrite list_lookup_insert_eq by assumption; simpl;
    rewrite list_lookup_insert_eq by assumption;
    rewrite Hback, Hcs, ?app_nil_r; reflexivity.
Qed.

End Checker.

(** C5: on a probe that fails to complete, [http.Get] returns a nil
    response; the iteration dereferences it at line 108 before line 113
    looks at the error.  The process dies with the mutex held, and
    [Healthy] is still [true]. *)
Theorem checker_probe_refused_crashes :
  main onePoolEnv = Serving oneState
  /\ exists st,
       exec oneState (replicate 3 (CheckerRuns 0 probeRefused)) = Some st
       /\ crashed st = true
       /\ Healthy <$> servers (store st) = [true]
       /\ mutexes (store st) = [true]
       /\ logs st = ["invalid memory address or nil pointer dereference"%string].
Proof.
  split; [vm_compute; reflexivity|].
  eexists. split; [vm_compute; reflexivity|].
  repeat apply conj; vm_compute; reflexivity.
Qed.

(** The two outcomes of an answered probe are as the source comments them:
    a status of 500 or more clears the flag, a smaller one sets it. *)
Example checker_status_500 :
  view <$> exec oneState (probe 0 (probeStatus 500)) = Some ([], [false], [0]).
Proof. vm_compute. reflexivity. Qed.

Example checker_status_500_then_200 :
  view <$> exec oneState (probe 0 (probeStatus 500) ++ probe 0 (probeStatus 200))
  = Some ([], [true], [0]).
Proof. vm_compute. reflexivity. Qed.

Example checker_status_499 :
  view <$> exec oneState (probe 0 (probeStatus 500) ++ probe 0 (probeStatus 499))
  = Some ([], [true], [0]).
Proof. vm_compute. reflexivity. Qed.

(** ** The running process *)

Lemma countP_app {A : Type} (P : A -> bool) (l k : list A) :
  countP P (l ++ k) = countP P l + countP P k.
Proof. induction l as [|x l IH]; simpl; [reflexivity|]. rewrite IH. lia. Qed.

Lemma countP_bounds {A : Type} (P : A -> bool) (l : list A) :
  0 <= countP P l <= Z.of_nat (length l).
Proof.
  induction l as [|x l IH]; simpl length; simpl countP; [lia|].
  destruct (P x); simpl Z.b2z; lia.
Qed.

Lemma countP_insert {A : Type} (P : A -> bool) (l : list A) (i : nat) (x y : A) :
  l !! i = Some x ->
  countP P (<[i := y]> l) = countP P l - Z.b2z (P x) + Z.b2z (P y).
Proof.
  revert i. induction l as [|z l IH]; intros [|i] H; try discriminate.
  - injection H as ->. simpl. lia.
  - simpl in *. rewrite (IH i H). lia.
Qed.

Lemma countP_insert_same {A : Type} (P : A -> bool) (l : list A) (i : nat) (x y : A) :
  l !! i = Some x -> P y = P x -> countP P (<[i := y]> l) = countP P l.
Proof. intros H E. rewrite (countP_insert P l i x y H), E. lia. Qed.

Lemma wfStore_mu sigma b s :
  wfStore sigma -> servers sigma !! b = Some s -> Mu s = b.
Proof. intros [_ H]. apply H. Qed.

Lemma lockMutex_Some m mu mu' :
  lockMutex m mu = Some mu' -> mu !! m = Some false /\ mu' = <[m := true]> mu.
Proof.
  unfold lockMutex. destruct (mu !! m) as [[|]|]; try discriminate.
  intros [= <-]. now split.
Qed.

Lemma unlockMutex_Some m mu mu' :
  unlockMutex m mu = Some mu' -> mu !! m = Some true /\ mu' = <[m := false]> mu.
Proof.
  unfold unlockMutex. destruct (mu !! m) as [[|]|]; try discriminate.
  intros [= <-]. now split.
Qed.

(** A step of a handler that still holds what it locked: it moves
    locally, takes a free mutex, gives back the one it holds, or counts
    one connection more.  The second [Lock] of line 133 is never granted:
    the mutex it asks for is the one line 127 took. *)
Lemma handlerStep_move sigma pc r sigma' pc' logged :
  wfStore sigma ->
  pastRelock pc = false ->
  (forall m, handlerHolds m pc = true -> mutexes sigma !! m = Some true) ->
  handlerStep sigma pc r = Moves sigma' pc' logged ->
  HandlerMove sigma pc sigma' pc' /\ pastRelock pc' = false /\ logged = [].
Proof.
  intros Hwf Hpc Hheld Hstep.
  destruct pc; simpl in Hpc; try discriminate; simpl in Hstep.
  - (* HEntry *)
    destruct (servers sigma); injection Hstep as <- <- <-;
      (split; [apply move_local|]); auto.
  - (* HScanLock *)
    destruct (servers sigma !! i) as [server|] eqn:Hs.
    + destruct (lockMutex _ _) as [mu|] eqn:Hl; [|discriminate].
      injection Hstep as <- <- <-. apply lockMutex_Some in Hl as [Hfree ->].
      rewrite (wfStore_mu _ _ _ Hwf Hs) in *.
      split; [apply move_acquire|]; auto.
    + injection Hstep as <- <- <-. split; [apply move_local|]; auto.
  - (* HScanBody *)
    destruct (servers sigma !! i) as [server|] eqn:Hs; [|discriminate].
    destruct (unlockMutex _ _) as [mu|] eqn:Hl; [|discriminate].
    injection Hstep as <- <- <-. apply unlockMutex_Some in Hl as [Hfree ->].
    rewrite (wfStore_mu _ _ _ Hwf Hs) in *.
    split; [apply move_release|]; auto.
  - (* HLock *)
    destruct (servers sigma !! b) as [server|] eqn:Hs; [|discriminate].
    destruct (lockMutex _ _) as [mu|] eqn:Hl; [|discriminate].
    injection Hstep as <- <- <-. apply lockMutex_Some in Hl as [Hfree ->].
    rewrite (wfStore_mu _ _ _ Hwf Hs) in *.
    split; [apply move_acquire|]; auto.
  - (* HIncr *)
    destruct (servers sigma !! b) as [server|] eqn:Hs; [|discriminate].
    injection Hstep as <- <- <-. split; [eapply move_incr|]; eauto.
  - (* HServe *)
    destruct r.
    + injection Hstep as <- <- <-. split; [apply move_local|]; auto.
    + destruct (servers sigma !! b) as [server|] eqn:Hs; [|discriminate].
      destruct (unlockMutex _ _) as [mu|] eqn:Hl; [|discriminate].
      injection Hstep as <- <- <-. apply unlockMutex_Some in Hl as [Hfree ->].
      rewrite (wfStore_mu _ _ _ Hwf Hs) in *.
      split; [apply move_release|]; auto.
  - (* HRelock *)
    destruct (servers sigma !! b) as [server|] eqn:Hs; [|discriminate].
    destruct (lockMutex _ _) as [mu|] eqn:Hl; [|discriminate].
    apply lockMutex_Some in Hl as [Hfree _].
    rewrite (wfStore_mu _ _ _ Hwf Hs) in *.
    rewrite (Hheld b) in Hfree; [discriminate|]. simpl. apply Nat.eqb_refl.
Qed.

Lemma lookup_insert_mutex (mu : list bool) (m m' : nat) (v0 v : bool) :
  mu !! m = Some v0 ->
  <[m := v]> mu !! m' = if Nat.eqb m m' then Some v else mu !! m'.
Proof.
  intros H. destruct (Nat.eqb_spec m m') as [<-|Hne].
  - apply list_lookup_insert_eq. eapply lookup_lt_Some; eauto.
  - now apply list_lookup_insert_ne.
Qed.

Lemma wfStore_mutexes sigma m v0 v :
  wfStore sigma -> mutexes sigma !! m = Some v0 ->
  wfStore (mkStore (servers sigma) (<[m := v]> (mutexes sigma))).
Proof.
  intros [Hlen Hmu] _. split; simpl; [now rewrite length_insert|assumption].
Qed.

Lemma wfStore_servers sigma b s s' :
  wfStore sigma -> servers sigma !! b = Some s -> Mu s' = Mu s ->
  wfStore (mkStore (<[b := s']> (servers sigma)) (mutexes sigma)).
Proof.
  intros [Hlen Hmu] Hs Hsame. split; simpl; [now rewrite length_insert|].
  intros i si Hi. apply list_lookup_insert_Some in Hi.
  destruct Hi as [(<- & <- & _)|[_ Hi]]; [|now apply Hmu].
  rewrite Hsame. now apply Hmu.
Qed.

Lemma countP_insert_mono {A : Type} (P : A -> bool) (l : list A) (i : nat) (x y : A) :
  l !! i = Some x -> (P x = true -> P y = true) ->
  countP P l <= countP P (<[i := y]> l).
Proof.
  intros H Hm. rewrite (countP_insert P l i x y H).
  destruct (P x); [rewrite Hm by reflexivity; lia|destruct (P y); simpl; lia].
Qed.

(** A move of a handler keeps the invariant. *)
Lemma Inv_handler_move st t pc sigma' pc' logged dead :
  Inv st ->
  handlers st !! t = Some pc ->
  HandlerMove (store st) pc sigma' pc' ->
  pastRelock pc' = false ->
  Inv (mkState sigma' (interval st) (<[t := pc']> (handlers st))
               (checkers st) logged dead).
Proof.
  intros [Hwf Hmutex Hrelock Hcount] Hpc Hmove Hpc'.
  assert (Hrelock' : Forall (fun pc => pastRelock pc = false)
                            (<[t := pc']> (handlers st))).
  { now apply Forall_insert. }
  destruct Hmove as [pc' Hsame Hmono|m pc' Hfree Hnone Hnew Hmono
                    |m pc' Hheld Hold Hnone Hmono|b s -> Hs].
  - (* a local move *)
    split; simpl; try assumption.
    + intros m. rewrite <- (Hmutex m). unfold holders. simpl.
      now rewrite (countP_insert_same _ _ _ _ _ Hpc (Hsame m)).
    + rewrite length_insert. intros Hlen.
      eapply Forall_impl; [exact (Hcount Hlen)|]. simpl. intros s Hb.
      pose proof (countP_insert_mono pastIncrement _ _ _ _ Hpc Hmono). lia.
  - (* a mutex is taken *)
    split; simpl; try assumption.
    + eapply wfStore_mutexes; eauto.
    + intros m'. unfold holders. simpl.
      rewrite (countP_insert _ _ _ _ _ Hpc), Hnone, Hnew.
      rewrite (lookup_insert_mutex _ _ _ _ _ Hfree).
      pose proof (Hmutex m') as Hm'. unfold holders in Hm'.
      destruct (Nat.eqb_spec m m') as [<-|Hne]; simpl Z.b2z.
      * rewrite Hfree in Hm'. lia.
      * lia.
    + rewrite length_insert. intros Hlen.
      eapply Forall_impl; [exact (Hcount Hlen)|]. simpl. intros s Hb.
      pose proof (countP_insert_mono pastIncrement _ _ _ _ Hpc Hmono). lia.
  - (* a mutex is given back *)
    split; simpl; try assumption.
    + eapply wfStore_mutexes; eauto.
    + intros m'. unfold holders. simpl.
      rewrite (countP_insert _ _ _ _ _ Hpc), Hnone, Hold.
      rewrite (lookup_insert_mutex _ _ _ _ _ Hheld).
      pose proof (Hmutex m') as Hm'. unfold holders in Hm'.
      destruct (Nat.eqb_spec m m') as [<-|Hne]; simpl Z.b2z.
      * rewrite Hheld in Hm'. lia.
      * lia.
    + rewrite length_insert. intros Hlen.
      eapply Forall_impl; [exact (Hcount Hlen)|]. simpl. intros s Hb.
      pose proof (countP_insert_mono pastIncrement _ _ _ _ Hpc Hmono). lia.
  - (* line 129 *)
    split; simpl; try assumption.
    + eapply wfStore_servers; eauto.
    + intros m. rewrite <- (Hmutex m). unfold holders. simpl.
      now rewrite (countP_insert_same _ _ _ _ _ Hpc).
    + rewrite length_insert. intros Hlen. specialize (Hcount Hlen).
      rewrite (countP_insert _ _ _ _ _ Hpc). simpl Z.b2z.
      pose proof (countP_bounds pastIncrement (<[t := HServe b]> (handlers st))) as Hb.
      rewrite length_insert, (countP_insert _ _ _ _ _ Hpc) in Hb. simpl Z.b2z in Hb.
      apply Forall_insert.
      * eapply Forall_impl; [exact Hcount|]. simpl. intros s' Hs'. lia.
      * rewrite Forall_lookup in Hcount. specialize (Hcount _ _ Hs).
        simpl in Hcount |- *. unfold incrInt.
        rewrite wrapInt_small; unfold minInt, maxInt, intBits in *; lia.
Qed.

Lemma checkerHolds_insert (cs : list CheckerPc) (c m : nat) (pc pc' : CheckerPc) :
  cs !! c = Some pc ->
  match <[c := pc']> cs !! m with
  | Some q => Z.b2z (checkerHolds q)
  | None => 0
  end
  = match cs !! m with
    | Some q => Z.b2z (checkerHolds q)
    | None => 0
    end
    + (if Nat.eqb c m
       then Z.b2z (checkerHolds pc') - Z.b2z (checkerHolds pc) else 0).
Proof.
  intros H. destruct (Nat.eqb_spec c m) as [<-|Hne].
  - rewrite list_lookup_insert_eq by (eapply lookup_lt_Some; eauto).
    rewrite H. lia.
  - rewrite list_lookup_insert_ne by assumption. lia.
Qed.

(** A step of a health checker keeps the invariant. *)
Lemma Inv_checker_step st c pc g sigma' pc' logged logged' dead :
  Inv st ->
  checkers st !! c = Some pc ->
  checkerStep (interval st) (store st) c pc g = Moves sigma' pc' logged ->
  Inv (mkState sigma' (interval st) (handlers st)
               (<[c := pc']> (checkers st)) logged' dead).
Proof.
  intros [Hwf Hmutex Hrelock Hcount] Hpc Hstep.
  unfold checkerStep in Hstep.
  destruct (servers (store st) !! c) as [server|] eqn:Hs; [|discriminate].
  pose proof (wfStore_mu _ _ _ Hwf Hs) as Hmu.
  assert (Hholders : forall m, holders st m
    = countP (handlerHolds m) (handlers st)
      + match checkers st !! m with
        | Some q => Z.b2z (checkerHolds q)
        | None => 0
        end) by reflexivity.
  destruct pc as [|g0|g0|g0|].
  - (* CGet *)
    destruct (0 <? interval st); [|discriminate]. injection Hstep as <- <- <-.
    split; simpl; try assumption.
    intros m. rewrite <- (Hmutex m), Hholders. unfold holders. simpl.
    rewrite (checkerHolds_insert _ _ _ _ _ Hpc). simpl.
    destruct (Nat.eqb c m); lia.
  - (* CLock *)
    destruct (lockMutex _ _) as [mu|] eqn:Hl; [|discriminate].
    injection Hstep as <- <- <-. apply lockMutex_Some in Hl as [Hfree ->].
    rewrite Hmu in *.
    split; simpl; try assumption.
    + eapply wfStore_mutexes; eauto.
    + intros m. unfold holders. simpl.
      rewrite (checkerHolds_insert _ _ _ _ _ Hpc). simpl.
      rewrite (lookup_insert_mutex _ _ _ _ _ Hfree).
      pose proof (Hmutex m) as Hm. rewrite Hholders in Hm.
      destruct (Nat.eqb_spec c m) as [<-|Hne].
      * rewrite Hfree in Hm. lia.
      * lia.
  - (* CClose *)
    destruct (getRes g0) as [res|]; [|discriminate].
    assert (sigma' = store st /\ pc' = CSet g0) as [-> ->].
    { destruct (BodyCloseErr res); injection Hstep as <- <- <-; now split. }
    split; simpl; try assumption.
    intros m. rewrite <- (Hmutex m), Hholders. unfold holders. simpl.
    rewrite (checkerHolds_insert _ _ _ _ _ Hpc). simpl.
    destruct (Nat.eqb c m); lia.
  - (* CSet *)
    assert (exists h, sigma' = mkStore (<[c := setHealthy h server]> (servers (store st)))
                                       (mutexes (store st)) /\ pc' = CUnlock)
      as (h & -> & ->).
    { destruct (getErr g0); [|destruct (getRes g0); [|discriminate];
                               destruct (StatusCode _ >=? 500)];
        injection Hstep as <- <- <-; eauto. }
    split; simpl; try assumption.
    + eapply wfStore_servers; eauto.
    + intros m. rewrite <- (Hmutex m), Hholders. unfold holders. simpl.
      rewrite (checkerHolds_insert _ _ _ _ _ Hpc). simpl.
      destruct (Nat.eqb c m); lia.
    + intros Hlen. specialize (Hcount Hlen). apply Forall_insert; [assumption|].
      rewrite Forall_lookup in Hcount. exact (Hcount _ _ Hs).
  - (* CUnlock *)
    destruct (unlockMutex _ _) as [mu|] eqn:Hl; [|discriminate].
    injection Hstep as <- <- <-. apply unlockMutex_Some in Hl as [Hheld ->].
    rewrite Hmu in *.
    split; simpl; try assumption.
    + eapply wfStore_mutexes; eauto.
    + intros m. unfold holders. simpl.
      rewrite (checkerHolds_insert _ _ _ _ _ Hpc). simpl.
      rewrite (lookup_insert_mutex _ _ _ _ _ Hheld).
      pose proof (Hmutex m) as Hm. rewrite Hholders in Hm.
      destruct (Nat.eqb_spec c m) as [<-|Hne].
      * rewrite Hheld in Hm. lia.
      * lia.
Qed.

(** What a handler holds is held. *)
Lemma Inv_held st t pc m :
  Inv st -> handlers st !! t = Some pc -> handlerHolds m pc = true ->
  mutexes (store st) !! m = Some true.
Proof.
  intros HI Hpc Hh. pose proof (inv_mutex _ HI m) as Hm. unfold holders in Hm.
  assert (1 <= countP (handlerHolds m) (handlers st)).
  { pose proof (countP_insert (handlerHolds m) _ _ _ HEntry Hpc) as Hc.
    pose proof (countP_bounds (handlerHolds m) (<[t := HEntry]> (handlers st))).
    rewrite Hh in Hc. simpl in Hc. lia. }
  destruct (checkers st !! m) as [q|];
    [destruct (checkerHolds q); simpl in Hm|];
    destruct (mutexes (store st) !! m) as [[|]|]; try reflexivity; lia.
Qed.

(** Every step keeps the invariant. *)
Lemma Inv_step st ev st' : Inv st -> step st ev = Some st' -> Inv st'.
Proof.
  intros HI Hstep. unfold step in Hstep.
  destruct (crashed st); [discriminate|].
  destruct ev as [|t r|c g].
  - (* a request arrives *)
    injection Hstep as <-. destruct HI as [Hwf Hmutex Hrelock Hcount].
    split; simpl; try assumption.
    + intros m. rewrite <- (Hmutex m). unfold holders. simpl.
      rewrite countP_app. simpl. lia.
    + apply Forall_app. split; [assumption|]. now repeat constructor.
    + rewrite length_app, countP_app. simpl. intros Hlen.
      eapply Forall_impl; [apply Hcount; lia|]. simpl. intros s Hs. lia.
  - destruct (handlers st !! t) as [pc|] eqn:Hpc; [|discriminate].
    destruct (handlerStep (store st) pc r) as [|sigma pc' logged|msg] eqn:Hh;
      [discriminate| |].
    + injection Hstep as <-.
      assert (Hpast : pastRelock pc = false).
      { pose proof (inv_relock _ HI) as Hr. rewrite Forall_lookup in Hr.
        exact (Hr _ _ Hpc). }
      destruct (handlerStep_move _ _ _ _ _ _ (inv_wf _ HI) Hpast
                  (fun m => Inv_held st t pc m HI Hpc) Hh) as (Hmove & Hpast' & _).
      eapply Inv_handler_move; eauto.
    + injection Hstep as <-. destruct HI. now split.
  - destruct (checkers st !! c) as [pc|] eqn:Hpc; [|discriminate].
    destruct (checkerStep (interval st) (store st) c pc g)
      as [|sigma pc' logged|msg] eqn:Hc; [discriminate| |].
    + injection Hstep as <-. eapply Inv_checker_step; eauto.
    + injection Hstep as <-. destruct HI. now split.
Qed.

Lemma Inv_exec evs : forall st st',
  Inv st -> exec st evs = Some st' -> Inv st'.
Proof.
  induction evs as [|ev evs IH]; intros st st' HI Hexec; simpl in Hexec.
  - now injection Hexec as <-.
  - destruct (step st ev) as [st1|] eqn:Hstep; [|discriminate].
    eapply IH; [|exact Hexec]. eapply Inv_step; eauto.
Qed.

(** ** From [main] onwards *)

Lemma parseServers_fresh env urls : forall pool pool',
  freshPool pool -> parseServers env urls pool = inl pool' -> freshPool pool'.
Proof.
  induction urls as [|u urls IH]; intros pool pool' Hfresh Hparse;
    simpl in Hparse.
  - now injection Hparse as <-.
  - destruct (ParseURL env u) as [parsed|err]; [|discriminate].
    eapply IH; [|exact Hparse].
    intros i s Hi. apply lookup_snoc_Some in Hi.
    destruct Hi as [[_ Hi]|[-> <-]]; [now apply Hfresh|now simpl].
Qed.

Lemma main_fresh env st :
  main env = Serving st ->
  exists healthCheckInterval pool,
    freshPool pool /\ st = startState healthCheckInterval pool.
Proof.
  unfold main. intros H.
  destruct (loadConfig env _) as [config [err|]]; [discriminate|].
  destruct (ParseDuration env _) as [d|err]; [|discriminate].
  destruct (parseServers env _ _) as [pool|err] eqn:Hpool; [|discriminate].
  destruct (ListenAndServe env _); [discriminate|].
  injection H as <-. exists d, pool. split; [|reflexivity].
  eapply parseServers_fresh; [|exact Hpool]. intros i s Hi. discriminate.
Qed.

Lemma Inv_start healthCheckInterval pool :
  freshPool pool -> Inv (startState healthCheckInterval pool).
Proof.
  intros Hfresh. split; simpl.
  - split; simpl; [apply length_replicate|]. intros i s Hi.
    now apply Hfresh.
  - intros m. unfold holders. simpl.
    destruct (replicate (length pool) CGet !! m) as [q|] eqn:Hq.
    + apply lookup_replicate in Hq as [-> Hm].
      now rewrite (lookup_replicate_2 _ false _ Hm).
    + apply lookup_replicate_None in Hq.
      apply (lookup_replicate_None _ false) in Hq. now rewrite Hq.
  - constructor.
  - intros _. apply Forall_lookup. intros i s Hi.
    destruct (Hfresh i s Hi) as (_ & -> & _). lia.
Qed.

Lemma step_handlers_length st ev st' :
  step st ev = Some st' ->
  length (handlers st') = (length (handlers st) + requests [ev])%nat.
Proof.
  unfold step. destruct (crashed st); [discriminate|].
  destruct ev as [|t r|c g]; unfold requests; simpl.
  - intros [= <-]. simpl. rewrite length_app. simpl. lia.
  - destruct (handlers st !! t); [|discriminate].
    destruct (handlerStep _ _ _); intros [= <-]; simpl;
      rewrite ?length_insert; lia.
  - destruct (checkers st !! c); [|discriminate].
    destruct (checkerStep _ _ _ _ _); intros [= <-]; simpl; lia.
Qed.

Lemma exec_handlers_length evs : forall st st',
  exec st evs = Some st' ->
  length (handlers st') = (length (handlers st) + requests evs)%nat.
Proof.
  induction evs as [|ev evs IH]; intros st st' Hexec; simpl in Hexec.
  - injection Hexec as <-. unfold requests. simpl. lia.
  - destruct (step st ev) as [st1|] eqn:Hstep; [|discriminate].
    rewrite (IH _ _ Hexec), (step_handlers_length _ _ _ Hstep).
    unfold requests. simpl. destruct (isRequest ev); simpl; lia.
Qed.

Lemma exec_app evs1 : forall evs2 st,
  exec st (evs1 ++ evs2)
  = match exec st evs1 with
    | Some st' => exec st' evs2
    | None => None
    end.
Proof.
  induction evs1 as [|ev evs1 IH]; intros evs2 st; simpl; [reflexivity|].
  destruct (step st ev); [apply IH|reflexivity].
Qed.

(** X12: in no schedule is the second [Lock] of a handler granted: no
    handler reaches the decrement of line 135 or the deferred calls of
    lines 134 and 128 at the return, and none returns. *)
Lemma handler_never_relocks env st0 evs st t pc :
  main env = Serving st0 ->
  exec st0 evs = Some st ->
  handlers st !! t = Some pc ->
  pc <> HReturned /\ forall b, pc <> HDecr b /\ pc <> HUnlock2 b /\ pc <> HUnlock1 b.
Proof.
  intros Hmain Hexec Hpc.
  destruct (main_fresh _ _ Hmain) as (d & pool & Hfresh & ->).
  pose proof (Inv_exec _ _ _ (Inv_start d pool Hfresh) Hexec) as HI.
  pose proof (inv_relock _ HI) as Hr. rewrite Forall_lookup in Hr.
  specialize (Hr _ _ Hpc).
  split; [|intros b; repeat split]; intros ->; discriminate.
Qed.

(** C1: one request against the pool of one backend that [main] builds.
    When the forwarding returns, the handler asks at line 133 for the
    mutex it has held since line 127 (the [Unlock] of line 128 is deferred
    to the return): it waits for ever, the decrement of line 135 is not
    executed and the count stays at 1.  When the forwarding panics, the
    handler ends with the deferred [Unlock] alone: the request is over and
    the count stays at 1. *)
Theorem handler_never_decrements_onePool :
  main onePoolEnv = Serving oneState
  /\ (exists st,
        exec oneState (solo 0 ServeReturns 7) = Some st
        /\ handlers st = [HRelock 0]
        /\ ActiveConnections <$> servers (store st) = [1]
        /\ mutexes (store st) = [true]
        /\ forall r, step st (HandlerRuns 0 r) = None)
  /\ (exists st,
        exec oneState (solo 0 ServePanics 7) = Some st
        /\ handlers st = [HPanicked]
        /\ ActiveConnections <$> servers (store st) = [1]
        /\ mutexes (store st) = [false]).
Proof.
  split; [vm_compute; reflexivity|].
  split; eexists; (split; [vm_compute; reflexivity|]);
    repeat apply conj; vm_compute; reflexivity.
Qed.

(** Scenario D: ten requests arrive at the pool of one backend.  The
    first handler gets as far as line 133, each of the others as far as
    the [Lock] of line 67; then no handler can take a step any more, and
    the count is 1. *)
Example scenarioD_stuck :
  exists st,
    exec oneState (replicate 10 Request
                   ++ replicate 7 (HandlerRuns 0 ServeReturns)
                   ++ map (fun t => HandlerRuns t ServeReturns) (seq 1 9))
    = Some st
    /\ handlers st = HRelock 0 :: replicate 9 (HScanLock 0 (1, 0%nat))
    /\ ActiveConnections <$> servers (store st) = [1]
    /\ forall t r, step st (HandlerRuns t r) = None.
Proof.
  eexists. split; [vm_compute; reflexivity|].
  split; [vm_compute; reflexivity|]. split; [vm_compute; reflexivity|].
  intros t r. do 10 (destruct t as [|t]; [vm_compute; reflexivity|]).
  reflexivity.
Qed.

(** C9, amended: every server starts at 0 when [main] has built the pool,
    and in every state the process reaches from there, by any schedule of
    requests, handler steps and health-checker steps in which at most
    [maxInt] requests have arrived, no server has a negative
    [ActiveConnections]. *)
Theorem activeConnections_nonneg env st0 evs st :
  main env = Serving st0 ->
  exec st0 evs = Some st ->
  Z.of_nat (requests evs) <= maxInt ->
  Forall (fun s => ActiveConnections s = 0) (servers (store st0))
  /\ Forall (fun s => 0 <= ActiveConnections s) (servers (store st)).
Proof.
  intros Hmain Hexec Hreq.
  destruct (main_fresh _ _ Hmain) as (d & pool & Hfresh & ->). split.
  - apply Forall_lookup. intros i s Hs. now destruct (Hfresh i s Hs) as (_ & ? & _).
  - pose proof (Inv_exec _ _ _ (Inv_start d pool Hfresh) Hexec) as HI.
    pose proof (exec_handlers_length _ _ _ Hexec) as Hlen. simpl in Hlen.
    eapply Forall_impl; [apply (inv_count _ HI); lia|].
    simpl. intros s Hs. lia.
Qed.

Lemma activeConnections_nonneg_witness :
  exists st,
    exec oneState (solo 0 ServePanics 7 ++ solo 1 ServeReturns 7) = Some st
    /\ ActiveConnections <$> servers (store st) = [2]
    /\ Forall (fun s => ActiveConnections s = 0) (servers (store oneState))
    /\ Forall (fun s => 0 <= ActiveConnections s) (servers (store st)).
Proof.
  eexists. split; [vm_compute; reflexivity|]. split; [vm_compute; reflexivity|].
  eapply (activeConnections_nonneg onePoolEnv oneState
            (solo 0 ServePanics 7 ++ solo 1 ServeReturns 7)).
  - vm_compute. reflexivity.
  - vm_compute. reflexivity.
  - vm_compute. discriminate.
Defined.

(** ** Requests in a row *)

Lemma step_handler_last sigma iv hs pc cs lg t r :
  t = length hs ->
  step (mkState sigma iv (hs ++ [pc]) cs lg false) (HandlerRuns t r)
  = match handlerStep sigma pc r with
    | Blocked => None
    | Moves sigma' pc' logged =>
        Some (mkState sigma' iv (hs ++ [pc']) cs (lg ++ logged) false)
    | Crashes msg =>
        Some (mkState sigma iv (hs ++ [pc]) cs (lg ++ [msg]) true)
    end.
Proof.
  intros ->. unfold step. simpl.
  rewrite list_lookup_middle by reflexivity.
  destruct (handlerStep sigma pc r); try reflexivity.
  rewrite insert_app_r_alt by lia. now rewrite Nat.sub_diag.
Qed.

(** One request whose forwarding panics, served alone by the single
    backend: the count goes up by one and stays there. *)
Lemma panicking_request u a iv hs cs lg t :
  t = length hs ->
  exec (mkState (mkStore [mkServer u a 0 true] [false]) iv hs cs lg false)
       (solo t ServePanics 7)
  = Some (mkState (mkStore [mkServer u (incrInt a) 0 true] [false]) iv
                  (hs ++ [HPanicked]) cs lg false).
Proof.
  intros Ht. unfold solo. cbn [exec replicate].
  change (step (mkState (mkStore [mkServer u a 0 true] [false]) iv hs cs lg false)
               Request)
    with (Some (mkState (mkStore [mkServer u a 0 true] [false]) iv
                        (hs ++ [HEntry]) cs lg false)).
  cbv beta iota.
  do 3 (rewrite step_handler_last by exact Ht;
        cbn [handlerStep servers mutexes lookup list_lookup lockMutex
             unlockMutex Mu insert list_insert ActiveConnections];
        rewrite ?app_nil_r).
  rewrite step_handler_last by exact Ht.
  cbn [handlerStep servers mutexes lookup list_lookup]. rewrite ?app_nil_r.
  assert (Hsnd : snd (scanStep 0 (mkServer u a 0 true) (a, 0%nat)) = 0%nat).
  { unfold scanStep. simpl. now destruct ((a <? a) || (a =? -1)). }
  rewrite Hsnd.
  do 3 (rewrite step_handler_last by exact Ht;
        cbn [handlerStep servers mutexes lookup list_lookup lockMutex
             unlockMutex Mu insert list_insert ActiveConnections
             setActiveConnections URL Healthy];
        rewrite ?app_nil_r).
  reflexivity.
Qed.

Lemma incrInt_wrapInt (z : Z) : incrInt (wrapInt z) = wrapInt (z + 1).
Proof. unfold incrInt. apply wrapInt_idem. Qed.

(** After [n] such requests the count is [n], as a Go [int]. *)
Lemma panickingRequests_exec (n : nat) :
  exec oneState (panickingRequests n)
  = Some (mkState
            (mkStore [mkServer "http://127.0.0.1:9001" (wrapInt (Z.of_nat n)) 0 true]
                     [false])
            10000000000 (replicate n HPanicked) [CGet] [] false).
Proof.
  induction n as [|n IH]; [vm_compute; reflexivity|].
  unfold panickingRequests in *.
  rewrite seq_S, flat_map_app, exec_app, IH.
  cbn [flat_map]. rewrite app_nil_r.
  rewrite panicking_request by (now rewrite length_replicate).
  rewrite incrInt_wrapInt, <- replicate_S_end, Nat2Z.inj_succ.
  reflexivity.
Qed.

Lemma panickingRequests_count (n : nat) :
  (fun st => ActiveConnections <$> servers (store st))
    <$> exec oneState (panickingRequests n)
  = Some [wrapInt (Z.of_nat n)].
Proof. now rewrite panickingRequests_exec. Qed.

Lemma requests_panickingRequests (n : nat) : requests (panickingRequests n) = n.
Proof.
  unfold panickingRequests, requests.
  induction n as [|n IH]; [reflexivity|].
  rewrite seq_S, flat_map_app, List.filter_app, length_app, IH. simpl. lia.
Qed.

(** C9, as stated, fails: [ActiveConnections] is a Go [int] that nothing
    ever decrements.  From the state [main] starts with, [2 ^ 63] requests
    whose forwarding panics leave the count of the backend at [minInt]:
    the increment of line 129, at [maxInt], wraps around. *)
Lemma activeConnections_overflow :
  main onePoolEnv = Serving oneState
  /\ (fun st => ActiveConnections <$> servers (store st))
       <$> exec oneState (panickingRequests (Z.to_nat (2 ^ 63)))
     = Some [- 2 ^ 63]
  /\ incrInt (2 ^ 63 - 1) = - 2 ^ 63.
Proof.
  split; [vm_compute; reflexivity|]. split; [|vm_compute; reflexivity].
  rewrite panickingRequests_count. rewrite Z2Nat.id by lia.
  vm_compute. reflexivity.
Qed.

(** ** A handler served alone *)

Lemma scanFrom_index rest : forall i acc,
  snd (scanFrom i rest acc) = snd acc
  \/ (i <= snd (scanFrom i rest acc) < i + length rest)%nat.
Proof.
  induction rest as [|s rest IH]; intros i acc; [now left|].
  cbn [scanFrom length].
  destruct (IH (S i) (scanStep i s acc)) as [->|H]; [|right; lia].
  unfold scanStep. destruct acc as [l b].
  destruct (Healthy s); [|now left].
  destruct ((ActiveConnections s <? l) || (l =? -1)); [right; simpl; lia|now left].
Qed.

(** The server returned is a server of the pool. *)
Lemma nextServerLeastActive_lt pool b :
  nextServerLeastActive pool = Some b -> (b < length pool)%nat.
Proof.
  destruct pool as [|first rest]; [discriminate|].
  intros Hsel.
  pose proof (scanFrom_index (first :: rest) 0 (ActiveConnections first, 0%nat))
    as H.
  assert (Hb : snd (scanFrom 0 (first :: rest) (ActiveConnections first, 0%nat)) = b)
    by (unfold nextServerLeastActive in Hsel; congruence).
  rewrite Hb in H. cbn [snd length] in *. destruct H as [->|H]; lia.
Qed.

Section Solo.

Variables (iv : Z) (cs : list CheckerPc) (lg : list string) (t : nat).

Lemma step_handler_moves r sigma hs pc sigma' pc' :
  hs !! t = Some pc ->
  handlerStep sigma pc r = Moves sigma' pc' [] ->
  step (mkState sigma iv hs cs lg false) (HandlerRuns t r)
  = Some (mkState sigma' iv (<[t := pc']> hs) cs lg false).
Proof.
  intros Hpc Hstep. unfold step. simpl. rewrite Hpc, Hstep.
  now rewrite app_nil_r.
Qed.

(** The loop of lines 66-75, run by a handler that finds every mutex
    free, leaves the store as it was and ends with the accumulator of
    [scanFrom]. *)
Lemma scan_solo r pool mu rest : forall pre acc hs,
  wfStore (mkStore pool mu) ->
  Forall (fun held => held = false) mu ->
  pool = pre ++ rest ->
  hs !! t = Some (HScanLock (length pre) acc) ->
  exec (mkState (mkStore pool mu) iv hs cs lg false)
       (replicate (2 * length rest + 1) (HandlerRuns t r))
  = Some (mkState (mkStore pool mu) iv
            (<[t := HLock (snd (scanFrom (length pre) rest acc))]> hs)
            cs lg false).
Proof.
  induction rest as [|s rest IH]; intros pre acc hs Hwf Hfree Hpool Hpc.
  - cbn [length Nat.mul Nat.add replicate exec].
    erewrite step_handler_moves; [reflexivity|exact Hpc|].
    cbn [handlerStep servers]. subst pool. rewrite app_nil_r.
    now rewrite (proj2 (lookup_ge_None pre (length pre))) by lia.
  - replace (2 * length (s :: rest) + 1)%nat
      with (S (S (2 * length rest + 1))) by (simpl; lia).
    cbn [replicate exec].
    assert (Hs : pool !! length pre = Some s).
    { subst pool. now apply list_lookup_middle. }
    pose proof (wfStore_mu _ _ _ Hwf Hs) as Hmu. simpl in Hmu.
    assert (Hm : mu !! length pre = Some false).
    { destruct Hwf as [Hlen _]. simpl in Hlen.
      destruct (mu !! length pre) as [held|] eqn:E.
      - rewrite Forall_lookup in Hfree. now rewrite (Hfree _ _ E).
      - apply lookup_ge_None in E. apply lookup_lt_Some in Hs. lia. }
    assert (Ht : (t < length hs)%nat) by (eapply lookup_lt_Some; eauto).
    erewrite step_handler_moves; [|exact Hpc|].
    2:{ cbn [handlerStep servers mutexes]. rewrite Hs. unfold lockMutex.
        rewrite Hmu, Hm. reflexivity. }
    erewrite step_handler_moves;
      [|now apply list_lookup_insert_eq|].
    2:{ cbn [handlerStep servers mutexes]. rewrite Hs. unfold unlockMutex.
        rewrite Hmu, list_lookup_insert_eq by (eapply lookup_lt_Some; eauto).
        rewrite list_insert_insert_eq, (list_insert_id _ _ _ Hm).
        reflexivity. }
    rewrite list_insert_insert_eq.
    rewrite (IH (pre ++ [s]) (scanStep (length pre) s acc)); try assumption.
    + rewrite list_insert_insert_eq, length_app. simpl.
      now replace (length pre + 1)%nat with (S (length pre)) by lia.
    + now rewrite <- app_assoc.
    + rewrite length_app. simpl.
      replace (length pre + 1)%nat with (S (length pre)) by lia.
      now apply list_lookup_insert_eq.
Qed.

(** The handler refines [nextServerLeastActive]: served alone on a store
    whose mutexes are free, it selects the server the function returns,
    takes its mutex, counts the connection and reaches the forwarding of
    line 131. *)
Lemma handler_solo_forwards r pool mu hs b server :
  wfStore (mkStore pool mu) ->
  Forall (fun held => held = false) mu ->
  hs !! t = Some HEntry ->
  nextServerLeastActive pool = Some b ->
  pool !! b = Some server ->
  exec (mkState (mkStore pool mu) iv hs cs lg false)
       (replicate (2 * length pool + 4) (HandlerRuns t r))
  = Some (mkState
            (mkStore (<[b := setActiveConnections
                               (incrInt (ActiveConnections server)) server]> pool)
                     (<[b := true]> mu))
            iv (<[t := HServe b]> hs) cs lg false).
Proof.
  intros Hwf Hfree Hpc Hsel Hb.
  assert (Ht : (t < length hs)%nat) by (eapply lookup_lt_Some; eauto).
  destruct pool as [|first rest] eqn:Hpool; [discriminate|]. rewrite <- Hpool in *.
  replace (2 * length pool + 4)%nat
    with (1 + ((2 * length pool + 1) + 2))%nat by lia.
  rewrite replicate_add, exec_app.
  cbn [replicate exec].
  erewrite step_handler_moves; [|exact Hpc|].
  2:{ cbn [handlerStep servers]. rewrite Hpool. reflexivity. }
  rewrite replicate_add, exec_app.
  pose proof (scan_solo r pool mu pool [] (ActiveConnections first, 0%nat)
                (<[t := HScanLock 0 (ActiveConnections first, 0%nat)]> hs)
                Hwf Hfree eq_refl) as Hscan.
  rewrite Hscan by (now apply list_lookup_insert_eq). clear Hscan.
  assert (Hsnd : snd (scanFrom 0 pool (ActiveConnections first, 0%nat)) = b).
  { rewrite Hpool in Hsel |- *. unfold nextServerLeastActive in Hsel.
    now injection Hsel. }
  change (length (@nil Server)) with 0%nat.
  rewrite Hsnd, list_insert_insert_eq.
  pose proof (wfStore_mu _ _ _ Hwf Hb) as Hmu. simpl in Hmu.
  assert (Hm : mu !! b = Some false).
  { destruct Hwf as [Hlen _]. simpl in Hlen.
    destruct (mu !! b) as [held|] eqn:E.
    - rewrite Forall_lookup in Hfree. now rewrite (Hfree _ _ E).
    - apply lookup_ge_None in E. apply lookup_lt_Some in Hb. lia. }
  cbn [replicate exec].
  erewrite step_handler_moves; [|now apply list_lookup_insert_eq|].
  2:{ cbn [handlerStep servers mutexes]. rewrite Hb. unfold lockMutex.
      rewrite Hmu, Hm. reflexivity. }
  erewrite step_handler_moves;
    [|rewrite list_insert_insert_eq; now apply list_lookup_insert_eq|].
  2:{ cbn [handlerStep servers mutexes]. rewrite Hb. reflexivity. }
  now rewrite !list_insert_insert_eq.
Qed.

(** X16: on every pool, when the forwarding of a handler served alone
    returns, the next step is the [Lock] of line 133, and it is not
    granted: the handler stops there with the connection counted. *)
Lemma handler_solo_blocks pool mu hs b server :
  wfStore (mkStore pool mu) ->
  Forall (fun held => held = false) mu ->
  hs !! t = Some HEntry ->
  nextServerLeastActive pool = Some b ->
  pool !! b = Some server ->
  exists st,
    exec (mkState (mkStore pool mu) iv hs cs lg false)
         (replicate (2 * length pool + 5) (HandlerRuns t ServeReturns)) = Some st
    /\ handlers st !! t = Some (HRelock b)
    /\ ActiveConnections <$> servers (store st) !! b
       = Some (incrInt (ActiveConnections server))
    /\ forall r, step st (HandlerRuns t r) = None.
Proof.
  intros Hwf Hfree Hpc Hsel Hb.
  assert (Ht : (t < length hs)%nat) by (eapply lookup_lt_Some; eauto).
  assert (Hbl : (b < length pool)%nat) by (eapply lookup_lt_Some; eauto).
  assert (Hml : (b < length mu)%nat).
  { destruct Hwf as [Hlen _]. simpl in Hlen. lia. }
  replace (2 * length pool + 5)%nat with ((2 * length pool + 4) + 1)%nat by lia.
  rewrite replicate_add, exec_app.
  pose proof (handler_solo_forwards ServeReturns pool mu hs b server Hwf Hfree Hpc Hsel Hb) as Hf.
  rewrite Hf. clear Hf.
  cbn [replicate exec].
  erewrite step_handler_moves; [|now apply list_lookup_insert_eq|reflexivity].
  eexists. split; [reflexivity|]. cbn [handlers store servers].
  rewrite list_insert_insert_eq.
  split; [now apply list_lookup_insert_eq|].
  split; [now rewrite list_lookup_insert_eq|].
  intros r. unfold step. cbn [crashed handlers store].
  rewrite list_lookup_insert_eq by assumption.
  cbn [handlerStep servers mutexes].
  rewrite list_lookup_insert_eq by assumption.
  unfold lockMutex. cbn [setActiveConnections Mu].
  rewrite (wfStore_mu _ _ _ Hwf Hb).
  now rewrite list_lookup_insert_eq by assumption.
Qed.

End Solo.

(** C3, amended: for every non-empty pool in which no server is healthy,
    selection reports no failure: [nextServerLeastActive] returns the first
    entry of the pool, an unhealthy server, and the handler, served alone
    with the mutexes free, takes it as valid: it counts the connection on
    it and forwards the request to it. *)
Theorem nextServerLeastActive_none_healthy
    (pool : list Server) (mu : list bool) (iv : Z) (hs : list HandlerPc)
    (cs : list CheckerPc) (lg : list string) (t : nat) (r : ServeResult) :
  pool <> [] ->
  Forall (fun s => Healthy s = false) pool ->
  wfStore (mkStore pool mu) ->
  Forall (fun held => held = false) mu ->
  hs !! t = Some HEntry ->
  exists first,
    nextServerLeastActive pool = Some 0%nat
    /\ pool !! 0%nat = Some first
    /\ Healthy first = false
    /\ exec (mkState (mkStore pool mu) iv hs cs lg false)
            (replicate (2 * length pool + 4) (HandlerRuns t r))
       = Some (mkState
                 (mkStore (<[0%nat := setActiveConnections
                                        (incrInt (ActiveConnections first)) first]> pool)
                          (<[0%nat := true]> mu))
                 iv (<[t := HServe 0]> hs) cs lg false).
Proof.
  intros Hne Hall Hwf Hfree Hpc. destruct pool as [|first rest]; [contradiction|].
  assert (Hsel : nextServerLeastActive (first :: rest) = Some 0%nat).
  { unfold nextServerLeastActive. now rewrite scanFrom_unhealthy. }
  exists first. split; [exact Hsel|]. split; [reflexivity|].
  split; [now inversion Hall|].
  now apply handler_solo_forwards.
Qed.

Lemma nextServerLeastActive_none_healthy_witness :
  exists first,
    nextServerLeastActive scenarioC = Some 0%nat
    /\ scenarioC !! 0%nat = Some first
    /\ Healthy first = false
    /\ exec (mkState (mkStore scenarioC [false; false]) 1 [HEntry] [CGet; CGet] [] false)
            (replicate (2 * length scenarioC + 4) (HandlerRuns 0 ServeReturns))
       = Some (mkState
                 (mkStore (<[0%nat := setActiveConnections
                                        (incrInt (ActiveConnections first)) first]>
                             scenarioC)
                          (<[0%nat := true]> [false; false]))
                 1 (<[0%nat := HServe 0]> [HEntry]) [CGet; CGet] [] false).
Proof.
  apply (nextServerLeastActive_none_healthy scenarioC [false; false] 1 [HEntry]
           [CGet; CGet] [] 0%nat ServeReturns).
  - discriminate.
  - repeat constructor.
  - split; [reflexivity|]. intros [|[|i]] s Hs; simpl in Hs;
      try discriminate; now injection Hs as <-.
  - repeat constructor.
  - reflexivity.
Defined.

(** * Further properties of the code *)

(** ** Selection *)

(** X1: [nextServerLeastActive] panics exactly on the empty pool, and on
    any other pool the server it returns is a server of that pool. *)
Theorem nextServerLeastActive_in_pool (pool : list Server) :
  (nextServerLeastActive pool = None <-> pool = [])
  /\ (forall b, nextServerLeastActive pool = Some b ->
                exists server, pool !! b = Some server).
Proof.
  split.
  - destruct pool; simpl; split; intros H; try reflexivity; discriminate.
  - intros b Hb. apply lookup_lt_is_Some. now apply nextServerLeastActive_lt.
Qed.

Lemma scanFrom_seed_or_healthy pool : forall rest pre acc,
  pool = pre ++ rest ->
  (snd acc = 0%nat \/ Healthy <$> pool !! snd acc = Some true) ->
  snd (scanFrom (length pre) rest acc) = 0%nat
  \/ Healthy <$> pool !! snd (scanFrom (length pre) rest acc) = Some true.
Proof.
  induction rest as [|s rest IH]; intros pre acc Hpool Hacc; [exact Hacc|].
  cbn [scanFrom].
  replace (S (length pre)) with (length (pre ++ [s]))
    by (rewrite length_app; simpl; lia).
  apply IH; [now rewrite <- app_assoc|].
  unfold scanStep. destruct acc as [l b].
  destruct (Healthy s) eqn:Hh; [|exact Hacc].
  destruct ((ActiveConnections s <? l) || (l =? -1)); [|exact Hacc].
  right. cbn [snd]. subst pool.
  rewrite list_lookup_middle by reflexivity. simpl. now rewrite Hh.
Qed.

(** X2: whatever the counts, the only unhealthy server
    [nextServerLeastActive] can return is the first one of the pool. *)
Theorem nextServerLeastActive_seed_or_healthy (pool : list Server) (b : nat)
    (server : Server) :
  nextServerLeastActive pool = Some b ->
  pool !! b = Some server ->
  b = 0%nat \/ Healthy server = true.
Proof.
  intros Hsel Hb. destruct pool as [|first rest]; [discriminate|].
  assert (Hsnd : snd (scanFrom 0 (first :: rest) (ActiveConnections first, 0%nat)) = b)
    by (unfold nextServerLeastActive in Hsel; congruence).
  destruct (scanFrom_seed_or_healthy (first :: rest) (first :: rest) []
              (ActiveConnections first, 0%nat) eq_refl (or_introl eq_refl))
    as [H|H]; change (length (@nil Server)) with 0%nat in H; rewrite Hsnd in H.
  - now left.
  - right. rewrite Hb in H. simpl in H. congruence.
Qed.

Lemma nextServerLeastActive_seed_or_healthy_witness :
  1%nat = 0%nat \/ Healthy (backend 1 true 0) = true.
Proof.
  apply (nextServerLeastActive_seed_or_healthy scenarioA 1 (backend 1 true 0));
    reflexivity.
Defined.

(** The accumulator of the loop stays at the seed unless a healthy server
    with a count strictly below the seed's is met. *)
Lemma scanFrom_below_seed pool first : forall rest pre l b,
  pool = pre ++ rest ->
  pool !! 0%nat = Some first ->
  Forall (fun s => 0 <= ActiveConnections s) pool ->
  (exists sb, pool !! b = Some sb /\ ActiveConnections sb = l
     /\ (b = 0%nat
         \/ (Healthy sb = true /\ l < ActiveConnections first))) ->
  exists sb, pool !! snd (scanFrom (length pre) rest (l, b)) = Some sb
    /\ (snd (scanFrom (length pre) rest (l, b)) = 0%nat
        \/ (Healthy sb = true
            /\ ActiveConnections sb < ActiveConnections first)).
Proof.
  induction rest as [|s rest IH]; intros pre l b Hpool Hfirst Hnn Hb.
  - simpl. destruct Hb as (sb & Hsb & <- & Hc). eauto.
  - cbn [scanFrom].
    assert (Hl : l <> -1 /\ l <= ActiveConnections first).
    { destruct Hb as (sb & Hsb & Hl & Hc). rewrite Forall_lookup in Hnn.
      specialize (Hnn _ _ Hsb). simpl in Hnn. split; [lia|].
      destruct Hc as [->|[_ Hc]]; [|lia].
      rewrite Hfirst in Hsb. injection Hsb as ->. lia. }
    destruct Hl as [Hl Hle].
    rewrite scanStep_cases by assumption.
    assert (Hs : pool !! length pre = Some s).
    { subst pool. now rewrite list_lookup_middle. }
    replace (S (length pre)) with (length (pre ++ [s]))
      by (rewrite length_app; simpl; lia).
    destruct (Healthy s) eqn:Hh; simpl;
      [destruct (Z.ltb_spec (ActiveConnections s) l)|];
      (apply IH; [now rewrite <- app_assoc|assumption..| ]); try exact Hb.
    exists s. split; [assumption|]. split; [reflexivity|]. right. split; [assumption|lia].
Qed.

(** X3: with counts that are not negative, [nextServerLeastActive] returns
    the first server of the pool, healthy or not, exactly when no healthy
    server has a count strictly below the count of the first. *)
Theorem nextServerLeastActive_seed_iff (first : Server) (rest : list Server) :
  Forall (fun s => 0 <= ActiveConnections s) (first :: rest) ->
  (nextServerLeastActive (first :: rest) = Some 0%nat
   <-> Forall (fun s => Healthy s = true ->
                        ActiveConnections first <= ActiveConnections s) rest).
Proof.
  intros Hnn. unfold nextServerLeastActive. split.
  - intros Hsel.
    assert (Hsnd : snd (scanFrom 0 (first :: rest) (ActiveConnections first, 0%nat))
                   = 0%nat) by congruence.
    clear Hsel.
    destruct (scanFrom_least (first :: rest) (first :: rest) []
                (ActiveConnections first) 0%nat) as (sb & Hsb & _ & Hmin);
      try easy.
    { exists first. auto. }
    change (length (@nil Server)) with 0%nat in *. rewrite Hsnd in Hsb, Hmin.
    injection Hsb as <-. apply Forall_lookup. intros j sj Hj Hh.
    exact (proj1 (Hmin (S j) sj Hj Hh)).
  - intros Hall. f_equal.
    destruct (scanFrom_below_seed (first :: rest) first (first :: rest) []
                (ActiveConnections first) 0%nat) as (sb & Hsb & Hc);
      try easy.
    { exists first. auto. }
    change (length (@nil Server)) with 0%nat in *.
    destruct Hc as [Hz|[Hh Hlt]]; [exact Hz|].
    destruct (snd (scanFrom 0 (first :: rest) (ActiveConnections first, 0%nat)))
      as [|j]; [reflexivity|].
    simpl in Hsb. rewrite Forall_lookup in Hall.
    specialize (Hall _ _ Hsb Hh). lia.
Qed.

Lemma nextServerLeastActive_seed_iff_witness :
  nextServerLeastActive scenarioB = Some 0%nat
  <-> Forall (fun s => Healthy s = true ->
                       ActiveConnections (backend 0 false 0) <= ActiveConnections s)
             [backend 1 true 3].
Proof.
  apply (nextServerLeastActive_seed_iff (backend 0 false 0) [backend 1 true 3]).
  unfold backend. repeat constructor; simpl; lia.
Defined.

Lemma nextServerLeastActive_first_healthy_witness :
  exists b sb,
    nextServerLeastActive scenarioA = Some b
    /\ scenarioA !! b = Some sb
    /\ Healthy sb = true
    /\ forall j sj, scenarioA !! j = Some sj -> Healthy sj = true ->
         ActiveConnections sb <= ActiveConnections sj
         /\ (ActiveConnections sj = ActiveConnections sb -> (b <= j)%nat).
Proof.
  apply (nextServerLeastActive_first_healthy (backend 0 true 2)
           [backend 1 true 0; backend 2 true 5]).
  - reflexivity.
  - unfold backend. repeat constructor; simpl; lia.
Defined.

(** ** Startup *)

Lemma parseServers_inl env urls : forall pool pool',
  parseServers env urls pool = inl pool' ->
  length pool' = (length pool + length urls)%nat
  /\ (forall i s, pool !! i = Some s -> pool' !! i = Some s)
  /\ (forall i u, urls !! i = Some u ->
        exists parsed,
          ParseURL env u = inl parsed
          /\ pool' !! (length pool + i)%nat
             = Some (mkServer parsed 0 (length pool + i) true)).
Proof.
  induction urls as [|u urls IH]; intros pool pool' Hparse; simpl in Hparse.
  - injection Hparse as <-. split; [simpl; lia|]. split; [auto|].
    intros i v Hv. discriminate.
  - destruct (ParseURL env u) as [parsed|err] eqn:Hu; [|discriminate].
    destruct (IH _ _ Hparse) as (Hlen & Hkeep & Hnew).
    rewrite length_app in Hlen, Hnew. simpl in Hlen, Hnew.
    split; [simpl; lia|]. split.
    + intros i s Hs. apply Hkeep. now apply lookup_app_l_Some.
    + intros [|i] v Hv; simpl in Hv.
      * injection Hv as <-. exists parsed. split; [assumption|].
        rewrite Nat.add_0_r. apply Hkeep. now apply list_lookup_middle.
      * destruct (Hnew i v Hv) as (p & Hp & Hi). exists p. split; [assumption|].
        now replace (length pool + S i)%nat with (length pool + 1 + i)%nat by lia.
Qed.

Lemma parseServers_inr env urls : forall pool i u err,
  urls !! i = Some u ->
  ParseURL env u = inr err ->
  (forall j v, (j < i)%nat -> urls !! j = Some v ->
               exists parsed, ParseURL env v = inl parsed) ->
  parseServers env urls pool = inr err.
Proof.
  induction urls as [|w urls IH]; intros pool i u err Hu Herr Hbefore;
    [discriminate|].
  destruct i as [|i]; simpl in Hu |- *.
  - injection Hu as ->. now rewrite Herr.
  - destruct (Hbefore 0%nat w) as [p Hp]; [lia|reflexivity|]. rewrite Hp.
    apply (IH _ i u err Hu Herr). intros j v Hj Hv.
    apply (Hbefore (S j) v); [lia|exact Hv].
Qed.

(** X4: when [main] gets as far as serving, the pool holds one server per
    configured URL, in the order of the configuration, each with the
    parsed URL, no connection, the healthy flag set and a mutex of its
    own, free; there is one health checker per server, waiting for its
    first tick, and no handler yet. *)
Theorem main_builds_pool (env : Env) (st : State) :
  main env = Serving st ->
  let urls := Servers (fst (loadConfig env "config.jsonc")) in
  handlers st = []
  /\ crashed st = false
  /\ checkers st = replicate (length urls) CGet
  /\ mutexes (store st) = replicate (length urls) false
  /\ length (servers (store st)) = length urls
  /\ forall i u, urls !! i = Some u ->
       exists parsed,
         ParseURL env u = inl parsed
         /\ servers (store st) !! i = Some (mkServer parsed 0 i true).
Proof.
  unfold main. intros H.
  destruct (loadConfig env _) as [config [err|]]; [discriminate|].
  destruct (ParseDuration env _) as [d|err]; [|discriminate].
  destruct (parseServers env _ _) as [pool|err] eqn:Hpool; [|discriminate].
  destruct (ListenAndServe env _); [discriminate|].
  injection H as <-. cbn [fst].
  destruct (parseServers_inl _ _ _ _ Hpool) as (Hlen & _ & Hnew).
  simpl in Hlen, Hnew. unfold startState. cbn [handlers crashed checkers store
    mutexes servers]. rewrite Hlen. repeat apply conj; try reflexivity.
  exact Hnew.
Qed.

Lemma main_builds_pool_witness :
  let urls := Servers (fst (loadConfig twoPoolEnv "config.jsonc")) in
  handlers twoState = []
  /\ crashed twoState = false
  /\ checkers twoState = replicate (length urls) CGet
  /\ mutexes (store twoState) = replicate (length urls) false
  /\ length (servers (store twoState)) = length urls
  /\ forall i u, urls !! i = Some u ->
       exists parsed,
         ParseURL twoPoolEnv u = inl parsed
         /\ servers (store twoState) !! i = Some (mkServer parsed 0 i true).
Proof.
  apply (main_builds_pool twoPoolEnv twoState). vm_compute. reflexivity.
Defined.

(** X5: when the configuration loads and the interval parses, the first
    configured URL that [url.Parse] rejects makes [main] abort with that
    error: no server is started for the URLs before it and the listener is
    not started. *)
Theorem main_url_error (env : Env) (config : Config) (d : Z) (i : nat)
    (u err : string) :
  loadConfig env "config.jsonc" = (config, None) ->
  ParseDuration env (HealthCheckInterval config) = inl d ->
  Servers config !! i = Some u ->
  ParseURL env u = inr err ->
  (forall j v, (j < i)%nat -> Servers config !! j = Some v ->
               exists parsed, ParseURL env v = inl parsed) ->
  main env = Fatal ("Error parsing servers (server URLs): " ++ err)%string.
Proof.
  intros Hload Hd Hu Herr Hbefore. unfold main. rewrite Hload, Hd.
  now rewrite (parseServers_inr env _ [] i u err Hu Herr Hbefore).
Qed.

Lemma main_url_error_witness :
  main badUrlEnv
  = Fatal ("Error parsing servers (server URLs): " ++ "missing protocol scheme")%string.
Proof.
  apply (main_url_error badUrlEnv (fst (loadConfig badUrlEnv "config.jsonc"))
           10000000000 1 ":9002" "missing protocol scheme").
  - vm_compute. reflexivity.
  - vm_compute. reflexivity.
  - reflexivity.
  - vm_compute. reflexivity.
  - intros [|j] v Hj Hv; [|lia]. injection Hv as <-. eexists. vm_compute. reflexivity.
Defined.

(** ** The health checker, again *)

Lemma checker_response_witness :
  view <$> exec oneState (probe 0 (probeStatus 503)) = Some ([], [false], [0]).
Proof.
  rewrite (checker_response oneState 0 (mkServer "http://127.0.0.1:9001" 0 0 true)
             (probeStatus 503) eq_refl eq_refl eq_refl eq_refl eq_refl
             (mkResponse 503 None) eq_refl).
  vm_compute. reflexivity.
Defined.

Lemma checker_no_response_witness :
  (fun st => (crashed st, view st))
    <$> exec oneState (replicate 3 (CheckerRuns 0 probeRefused))
  = Some (true, ([], [true], [0])).
Proof.
  rewrite (checker_no_response oneState 0 (mkServer "http://127.0.0.1:9001" 0 0 true)
             probeRefused eq_refl eq_refl eq_refl eq_refl eq_refl eq_refl).
  vm_compute. reflexivity.
Defined.

(** ** What a step leaves alone *)

Lemma fmap_insert_same {A B : Type} (f : A -> B) (l : list A) (i : nat) (x y : A) :
  l !! i = Some x -> f y = f x -> f <$> <[i := y]> l = f <$> l.
Proof.
  intros Hx Hf. rewrite list_fmap_insert, Hf.
  apply list_insert_id. now rewrite list_lookup_fmap, Hx.
Qed.

Lemma handlerStep_frame sigma pc r sigma' pc' logged :
  handlerStep sigma pc r = Moves sigma' pc' logged ->
  URL <$> servers sigma' = URL <$> servers sigma
  /\ Mu <$> servers sigma' = Mu <$> servers sigma
  /\ Healthy <$> servers sigma' = Healthy <$> servers sigma
  /\ length (mutexes sigma') = length (mutexes sigma).
Proof.
  intros Hstep.
  destruct pc; simpl in Hstep;
    repeat match type of Hstep with
    | context [servers sigma !! ?b] =>
        destruct (servers sigma !! b) as [server|] eqn:?
    | context [match servers sigma with _ => _ end] =>
        destruct (servers sigma) eqn:?
    | context [lockMutex ?m ?mu] =>
        let E := fresh in
        destruct (lockMutex m mu) eqn:E; [apply lockMutex_Some in E as [_ ->]|]
    | context [unlockMutex ?m ?mu] =>
        let E := fresh in
        destruct (unlockMutex m mu) eqn:E; [apply unlockMutex_Some in E as [_ ->]|]
    | context [match r with _ => _ end] => destruct r
    end;
    try discriminate; injection Hstep as <- <- <-; cbn [servers mutexes];
    rewrite ?length_insert;
    repeat apply conj; try reflexivity; try congruence;
    (eapply fmap_insert_same; [eassumption|reflexivity]).
Qed.

Lemma checkerStep_frame iv sigma c pc g sigma' pc' logged :
  checkerStep iv sigma c pc g = Moves sigma' pc' logged ->
  URL <$> servers sigma' = URL <$> servers sigma
  /\ Mu <$> servers sigma' = Mu <$> servers sigma
  /\ ActiveConnections <$> servers sigma' = ActiveConnections <$> servers sigma
  /\ length (mutexes sigma') = length (mutexes sigma).
Proof.
  unfold checkerStep. intros Hstep.
  destruct (servers sigma !! c) as [server|] eqn:Hs; [|discriminate].
  destruct pc as [|g0|g0|g0|];
    repeat match type of Hstep with
    | context [lockMutex ?m ?mu] =>
        let E := fresh in
        destruct (lockMutex m mu) eqn:E; [apply lockMutex_Some in E as [_ ->]|]
    | context [unlockMutex ?m ?mu] =>
        let E := fresh in
        destruct (unlockMutex m mu) eqn:E; [apply unlockMutex_Some in E as [_ ->]|]
    | context [if ?b then _ else _] => destruct b
    | context [match ?o with Some _ => _ | None => _ end] => destruct o
    end;
    try discriminate; injection Hstep as <- <- <-; cbn [servers mutexes];
    rewrite ?length_insert;
    repeat apply conj; try reflexivity;
    (eapply fmap_insert_same; [eassumption|reflexivity]).
Qed.

Lemma step_frame st ev st' :
  step st ev = Some st' ->
  URL <$> servers (store st') = URL <$> servers (store st)
  /\ Mu <$> servers (store st') = Mu <$> servers (store st)
  /\ length (mutexes (store st')) = length (mutexes (store st))
  /\ interval st' = interval st
  /\ (isCheckerRun ev = false ->
      Healthy <$> servers (store st') = Healthy <$> servers (store st))
  /\ (isHandlerRun ev = false ->
      ActiveConnections <$> servers (store st')
      = ActiveConnections <$> servers (store st)).
Proof.
  unfold step. destruct (crashed st); [discriminate|].
  destruct ev as [|t r|c g].
  - intros [= <-]. simpl. repeat apply conj; reflexivity.
  - destruct (handlers st !! t) as [pc|]; [|discriminate].
    destruct (handlerStep (store st) pc r) as [|sigma pc' logged|msg] eqn:Hh;
      [discriminate| |]; intros [= <-]; simpl.
    + destruct (handlerStep_frame _ _ _ _ _ _ Hh) as (? & ? & ? & ?).
      repeat apply conj; auto; discriminate.
    + repeat apply conj; reflexivity.
  - destruct (checkers st !! c) as [pc|]; [|discriminate].
    destruct (checkerStep (interval st) (store st) c pc g)
      as [|sigma pc' logged|msg] eqn:Hc; [discriminate| |]; intros [= <-]; simpl.
    + destruct (checkerStep_frame _ _ _ _ _ _ _ _ Hc) as (? & ? & ? & ?).
      repeat apply conj; auto; discriminate.
    + repeat apply conj; reflexivity.
Qed.

(** X8: the pool is fixed once [main] has built it: whatever the process
    does, no server is added or removed, no URL and no mutex address
    changes, and the probing interval stays what it was. *)
Theorem pool_fixed (evs : list Event) : forall st st',
  exec st evs = Some st' ->
  URL <$> servers (store st') = URL <$> servers (store st)
  /\ Mu <$> servers (store st') = Mu <$> servers (store st)
  /\ length (servers (store st')) = length (servers (store st))
  /\ length (mutexes (store st')) = length (mutexes (store st))
  /\ interval st' = interval st.
Proof.
  induction evs as [|ev evs IH]; intros st st' Hexec; simpl in Hexec.
  - injection Hexec as <-. repeat apply conj; reflexivity.
  - destruct (step st ev) as [st1|] eqn:Hstep; [|discriminate].
    destruct (step_frame _ _ _ Hstep) as (Hu & Hm & Hl & Hi & _).
    destruct (IH _ _ Hexec) as (Hu' & Hm' & Hn' & Hl' & Hi').
    repeat apply conj; try congruence.
    rewrite <- (length_fmap URL), Hu', Hu. apply length_fmap.
Qed.

Lemma pool_fixed_witness :
  exists st',
    exec twoState (probe 1 (probeStatus 500) ++ solo 0 ServePanics 9) = Some st'
    /\ URL <$> servers (store st') = URL <$> servers (store twoState)
    /\ Mu <$> servers (store st') = Mu <$> servers (store twoState)
    /\ length (servers (store st')) = length (servers (store twoState))
    /\ length (mutexes (store st')) = length (mutexes (store twoState))
    /\ interval st' = interval twoState.
Proof.
  eexists. split; [vm_compute; reflexivity|].
  apply (pool_fixed (probe 1 (probeStatus 500) ++ solo 0 ServePanics 9) twoState).
  vm_compute. reflexivity.
Defined.

(** X9: only the health checkers write [Healthy]: a schedule in which no
    checker takes a step, whatever the requests and the handlers do,
    leaves every flag as it was. *)
Theorem handlers_keep_Healthy (evs : list Event) : forall st st',
  exec st evs = Some st' ->
  forallb (fun ev => negb (isCheckerRun ev)) evs = true ->
  Healthy <$> servers (store st') = Healthy <$> servers (store st).
Proof.
  induction evs as [|ev evs IH]; intros st st' Hexec Hno; simpl in Hexec, Hno.
  - now injection Hexec as <-.
  - destruct (step st ev) as [st1|] eqn:Hstep; [|discriminate].
    apply andb_prop in Hno as [Hev Hno]. apply negb_true_iff in Hev.
    destruct (step_frame _ _ _ Hstep) as (_ & _ & _ & _ & Hh & _).
    rewrite (IH _ _ Hexec Hno). now apply Hh.
Qed.

Lemma handlers_keep_Healthy_witness :
  exists st',
    exec twoState (solo 0 ServePanics 9 ++ solo 1 ServeReturns 9) = Some st'
    /\ Healthy <$> servers (store st') = Healthy <$> servers (store twoState).
Proof.
  eexists. split; [vm_compute; reflexivity|].
  apply (handlers_keep_Healthy (solo 0 ServePanics 9 ++ solo 1 ServeReturns 9)
           twoState);
    vm_compute; reflexivity.
Defined.

(** X10: only the request handlers write [ActiveConnections]: a schedule
    in which no handler takes a step, whatever the health checkers do and
    however many requests arrive, leaves every count as it was. *)
Theorem checkers_keep_ActiveConnections (evs : list Event) : forall st st',
  exec st evs = Some st' ->
  forallb (fun ev => negb (isHandlerRun ev)) evs = true ->
  ActiveConnections <$> servers (store st')
  = ActiveConnections <$> servers (store st).
Proof.
  induction evs as [|ev evs IH]; intros st st' Hexec Hno; simpl in Hexec, Hno.
  - now injection Hexec as <-.
  - destruct (step st ev) as [st1|] eqn:Hstep; [|discriminate].
    apply andb_prop in Hno as [Hev Hno]. apply negb_true_iff in Hev.
    destruct (step_frame _ _ _ Hstep) as (_ & _ & _ & _ & _ & Ha).
    rewrite (IH _ _ Hexec Hno). now apply Ha.
Qed.

Lemma checkers_keep_ActiveConnections_witness :
  exists st',
    exec twoState ([Request] ++ probe 0 (probeStatus 500)
                   ++ probe 1 (probeStatus 200)) = Some st'
    /\ ActiveConnections <$> servers (store st')
       = ActiveConnections <$> servers (store twoState).
Proof.
  eexists. split; [vm_compute; reflexivity|].
  apply (checkers_keep_ActiveConnections
           ([Request] ++ probe 0 (probeStatus 500) ++ probe 1 (probeStatus 200))
           twoState);
    vm_compute; reflexivity.
Defined.

(** ** The interval *)

Lemma tickless_exec (evs : list Event) : forall st1 st,
  interval st1 <= 0 ->
  Forall (fun h => h = true) (Healthy <$> servers (store st1)) ->
  Forall (fun pc => pc = CGet) (checkers st1) ->
  exec st1 evs = Some st ->
  Forall (fun h => h = true) (Healthy <$> servers (store st))
  /\ Forall (fun pc => pc = CGet) (checkers st).
Proof.
  induction evs as [|ev evs IH]; intros st1 st Hiv Hh Hc Hexec;
    simpl in Hexec.
  - injection Hexec as <-. now split.
  - destruct (step st1 ev) as [st2|] eqn:Hstep; [|discriminate].
    destruct (step_frame _ _ _ Hstep) as (_ & _ & _ & Hi & Hkeep & _).
    unfold step in Hstep. destruct (crashed st1); [discriminate|].
    destruct ev as [|t r|c g].
    + apply (IH st2 st); [lia|now rewrite (Hkeep eq_refl)| |exact Hexec].
      now injection Hstep as <-.
    + apply (IH st2 st); [lia|now rewrite (Hkeep eq_refl)| |exact Hexec].
      destruct (handlers st1 !! t); [|discriminate].
      destruct (handlerStep _ _ _); [discriminate| |];
        now injection Hstep as <-.
    + destruct (checkers st1 !! c) as [pc|] eqn:Hpc; [|discriminate].
      pose proof Hc as Hc'. rewrite Forall_lookup in Hc'.
      rewrite (Hc' _ _ Hpc) in Hstep. unfold checkerStep in Hstep.
      destruct (servers (store st1) !! c).
      * destruct (Z.ltb_spec 0 (interval st1)); [lia|discriminate].
      * injection Hstep as <-. now apply (IH _ st) in Hexec.
Qed.

(** X11: when the configured interval is zero or negative, [time.Tick]
    never ticks: no probe is ever made, every health checker stays at
    line 104 and every server keeps the healthy flag [main] gave it. *)
Theorem no_probe_without_tick (env : Env) (st0 : State) (evs : list Event)
    (st : State) :
  main env = Serving st0 ->
  interval st0 <= 0 ->
  exec st0 evs = Some st ->
  Forall (fun s => Healthy s = true) (servers (store st))
  /\ Forall (fun pc => pc = CGet) (checkers st).
Proof.
  intros Hmain Hiv Hexec.
  destruct (main_fresh _ _ Hmain) as (d & pool & Hfresh & ->).
  assert (Hh0 : Forall (fun h => h = true)
                       (Healthy <$> servers (store (startState d pool)))).
  { apply Forall_fmap, Forall_lookup. intros i s Hs.
    now destruct (Hfresh i s Hs) as (_ & _ & ?). }
  assert (Hc0 : Forall (fun pc => pc = CGet) (checkers (startState d pool))).
  { apply Forall_lookup. intros i pc Hpc. simpl in Hpc.
    now apply lookup_replicate in Hpc as [-> _]. }
  destruct (tickless_exec evs _ _ Hiv Hh0 Hc0 Hexec) as [Hh Hc].
  split; [|assumption]. now apply Forall_fmap in Hh.
Qed.

Lemma no_probe_without_tick_witness :
  exists st,
    exec (startState 0 onePool) (solo 0 ServePanics 7 ++ [Request]) = Some st
    /\ Forall (fun s => Healthy s = true) (servers (store st))
    /\ Forall (fun pc => pc = CGet) (checkers st).
Proof.
  eexists. split.
  2: apply (no_probe_without_tick zeroIntervalEnv (startState 0 onePool)
              (solo 0 ServePanics 7 ++ [Request])).
  all: try (vm_compute; reflexivity).
  vm_compute. discriminate.
Defined.

(** ** Mutual exclusion and the mutex that is never given back *)

(** X13: in every state the process reaches from [main], a mutex is held
    exactly when one goroutine, handler or health checker, is between its
    [Lock] and its [Unlock]; two goroutines are never there together. *)
Theorem mutex_held_by_one (env : Env) (st0 : State) (evs : list Event)
    (st : State) (m : nat) :
  main env = Serving st0 ->
  exec st0 evs = Some st ->
  holders st m = match mutexes (store st) !! m with
                 | Some true => 1
                 | _ => 0
                 end
  /\ holders st m <= 1.
Proof.
  intros Hmain Hexec.
  destruct (main_fresh _ _ Hmain) as (d & pool & Hfresh & ->).
  pose proof (Inv_exec _ _ _ (Inv_start d pool Hfresh) Hexec) as HI.
  pose proof (inv_mutex _ HI m) as Hm. split; [exact Hm|].
  rewrite Hm. destruct (mutexes (store st) !! m) as [[|]|]; lia.
Qed.

Lemma mutex_held_by_one_witness :
  exists st,
    exec twoState (solo 0 ServeReturns 9 ++ [CheckerRuns 1 (probeStatus 200);
                                             CheckerRuns 1 (probeStatus 200)])
    = Some st
    /\ mutexes (store st) = [true; true]
    /\ holders st 0 = 1 /\ holders st 0 <= 1.
Proof.
  eexists. split; [vm_compute; reflexivity|]. split; [vm_compute; reflexivity|].
  apply (mutex_held_by_one twoPoolEnv twoState
           (solo 0 ServeReturns 9 ++ [CheckerRuns 1 (probeStatus 200);
                                      CheckerRuns 1 (probeStatus 200)]));
    vm_compute; reflexivity.
Defined.

Lemma handler_never_relocks_witness :
  HRelock 0 <> HReturned
  /\ forall b, HRelock 0 <> HDecr b /\ HRelock 0 <> HUnlock2 b
               /\ HRelock 0 <> HUnlock1 b.
Proof.
  eapply (handler_never_relocks onePoolEnv oneState (solo 0 ServeReturns 7) _ 0%nat).
  all: try match goal with
           | |- main _ = _ => vm_compute; reflexivity
           | |- exec oneState _ = _ => vm_compute; reflexivity
           end.
  vm_compute. reflexivity.
Defined.

(** A handler that waits at line 133 stays there, whatever happens. *)
Lemma relock_stays st ev st' t b :
  Inv st ->
  handlers st !! t = Some (HRelock b) ->
  step st ev = Some st' ->
  handlers st' !! t = Some (HRelock b).
Proof.
  intros HI Ht Hstep. unfold step in Hstep.
  destruct (crashed st); [discriminate|].
  destruct ev as [|t' r|c g].
  - injection Hstep as <-. simpl. now apply lookup_app_l_Some.
  - destruct (handlers st !! t') as [pc|] eqn:Hpc; [|discriminate].
    destruct (handlerStep (store st) pc r) as [|sigma pc' logged|msg] eqn:Hh;
      [discriminate| |]; injection Hstep as <-; simpl; [|exact Ht].
    destruct (decide (t' = t)) as [->|Hne];
      [|now rewrite list_lookup_insert_ne].
    exfalso. rewrite Ht in Hpc. injection Hpc as <-.
    simpl in Hh.
    destruct (servers (store st) !! b) as [server|] eqn:Hs; [|discriminate].
    destruct (lockMutex _ _) as [mu|] eqn:Hl; [|discriminate].
    apply lockMutex_Some in Hl as [Hfree _].
    rewrite (wfStore_mu _ _ _ (inv_wf _ HI) Hs) in Hfree.
    rewrite (Inv_held st t (HRelock b) b HI Ht) in Hfree; [discriminate|].
    simpl. apply Nat.eqb_refl.
  - destruct (checkers st !! c) as [pc|]; [|discriminate].
    destruct (checkerStep _ _ _ _ _); [discriminate| |];
      now injection Hstep as <-.
Qed.

(** X14: once the forwarding of a handler has returned, the mutex of the
    server it chose is never given back: in whatever the process does
    afterwards, the handler still waits at line 133 and the mutex is still
    held, so that no scan of the pool and no probe of that server gets
    past it any more. *)
Theorem mutex_never_released (env : Env) (st0 : State) (evs1 : list Event)
    (st1 : State) (t b : nat) (evs2 : list Event) (st2 : State) :
  main env = Serving st0 ->
  exec st0 evs1 = Some st1 ->
  handlers st1 !! t = Some (HRelock b) ->
  exec st1 evs2 = Some st2 ->
  handlers st2 !! t = Some (HRelock b)
  /\ mutexes (store st2) !! b = Some true.
Proof.
  intros Hmain Hexec1 Ht Hexec2.
  destruct (main_fresh _ _ Hmain) as (d & pool & Hfresh & ->).
  pose proof (Inv_exec _ _ _ (Inv_start d pool Hfresh) Hexec1) as HI1.
  clear Hexec1 Hmain Hfresh.
  assert (Hstay : handlers st2 !! t = Some (HRelock b) /\ Inv st2).
  { revert st1 HI1 Ht Hexec2.
    induction evs2 as [|ev evs2 IH]; intros st1 HI1 Ht Hexec2; simpl in Hexec2.
    - injection Hexec2 as <-. now split.
    - destruct (step st1 ev) as [st|] eqn:Hstep; [|discriminate].
      apply (IH st); [eapply Inv_step; eauto| |exact Hexec2].
      eapply relock_stays; eauto. }
  destruct Hstay as [Ht2 HI2]. split; [exact Ht2|].
  apply (Inv_held st2 t (HRelock b) b HI2 Ht2). simpl. apply Nat.eqb_refl.
Qed.

Lemma mutex_never_released_witness :
  exists st2,
    exec twoState (solo 0 ServeReturns 9
                   ++ [Request; HandlerRuns 1 ServeReturns;
                       CheckerRuns 1 (probeStatus 200)])
    = Some st2
    /\ handlers st2 !! 0%nat = Some (HRelock 0)
    /\ mutexes (store st2) !! 0%nat = Some true.
Proof.
  eexists. split; [vm_compute; reflexivity|].
  eapply (mutex_never_released twoPoolEnv twoState (solo 0 ServeReturns 9) _
            0%nat 0%nat [Request; HandlerRuns 1 ServeReturns;
                         CheckerRuns 1 (probeStatus 200)]).
  all: try match goal with
           | |- main _ = _ => vm_compute; reflexivity
           | |- exec twoState _ = _ => vm_compute; reflexivity
           end.
  all: vm_compute; reflexivity.
Defined.

(** ** A handler served alone, again *)

(** X15: the handler and the function agree.  A handler served alone on a
    store whose mutexes are free selects the server
    [nextServerLeastActive] returns for the pool, leaves every other
    server and every other mutex as they were, counts one connection on
    the server selected and reaches the forwarding with its mutex held. *)
Theorem handler_refines_selection (iv : Z) (cs : list CheckerPc)
    (lg : list string) (t : nat) (r : ServeResult) (pool : list Server)
    (mu : list bool) (hs : list HandlerPc) (b : nat) (server : Server) :
  wfStore (mkStore pool mu) ->
  Forall (fun held => held = false) mu ->
  hs !! t = Some HEntry ->
  nextServerLeastActive pool = Some b ->
  pool !! b = Some server ->
  exec (mkState (mkStore pool mu) iv hs cs lg false)
       (replicate (2 * length pool + 4) (HandlerRuns t r))
  = Some (mkState
            (mkStore (<[b := setActiveConnections
                               (incrInt (ActiveConnections server)) server]> pool)
                     (<[b := true]> mu))
            iv (<[t := HServe b]> hs) cs lg false).
Proof. apply handler_solo_forwards. Qed.

Lemma handler_refines_selection_witness :
  exec (mkState (mkStore scenarioA [false; false; false]) 1 [HEntry] [] [] false)
       (replicate (2 * length scenarioA + 4) (HandlerRuns 0 ServeReturns))
  = Some (mkState
            (mkStore (<[1%nat := setActiveConnections
                                   (incrInt (ActiveConnections (backend 1 true 0)))
                                   (backend 1 true 0)]> scenarioA)
                     (<[1%nat := true]> [false; false; false]))
            1 (<[0%nat := HServe 1]> [HEntry]) [] [] false).
Proof.
  apply (handler_refines_selection 1 [] [] 0 ServeReturns scenarioA
           [false; false; false] [HEntry] 1 (backend 1 true 0)).
  - split; [reflexivity|]. intros [|[|[|i]]] s Hs; simpl in Hs;
      try discriminate; now injection Hs as <-.
  - repeat constructor.
  - reflexivity.
  - reflexivity.
  - reflexivity.
Defined.

(** X17: a connection that is counted is never released.  When the
    forwarding of a handler served alone panics, the handler ends with the
    deferred [Unlock] of line 128 alone: every mutex is free again, and
    the count of the server selected stays one above what it was. *)
Theorem handler_panic_keeps_count (iv : Z) (cs : list CheckerPc)
    (lg : list string) (t : nat) (pool : list Server) (mu : list bool)
    (hs : list HandlerPc) (b : nat) (server : Server) :
  wfStore (mkStore pool mu) ->
  Forall (fun held => held = false) mu ->
  hs !! t = Some HEntry ->
  nextServerLeastActive pool = Some b ->
  pool !! b = Some server ->
  exec (mkState (mkStore pool mu) iv hs cs lg false)
       (replicate (2 * length pool + 5) (HandlerRuns t ServePanics))
  = Some (mkState
            (mkStore (<[b := setActiveConnections
                               (incrInt (ActiveConnections server)) server]> pool)
                     mu)
            iv (<[t := HPanicked]> hs) cs lg false).
Proof.
  intros Hwf Hfree Hpc Hsel Hb.
  assert (Ht : (t < length hs)%nat) by (eapply lookup_lt_Some; eauto).
  assert (Hbl : (b < length pool)%nat) by (eapply lookup_lt_Some; eauto).
  assert (Hm : mu !! b = Some false).
  { destruct Hwf as [Hlen _]. simpl in Hlen.
    destruct (mu !! b) as [held|] eqn:E.
    - rewrite Forall_lookup in Hfree. now rewrite (Hfree _ _ E).
    - apply lookup_ge_None in E. lia. }
  replace (2 * length pool + 5)%nat with ((2 * length pool + 4) + 1)%nat by lia.
  rewrite replicate_add, exec_app.
  rewrite (handler_solo_forwards iv cs lg t ServePanics pool mu hs b server
             Hwf Hfree Hpc Hsel Hb).
  cbn [replicate exec].
  erewrite step_handler_moves; [|now apply list_lookup_insert_eq|].
  2:{ cbn [handlerStep servers mutexes].
      rewrite list_lookup_insert_eq by assumption.
      unfold unlockMutex. cbn [setActiveConnections Mu].
      rewrite (wfStore_mu _ _ _ Hwf Hb).
      rewrite list_lookup_insert_eq by (eapply lookup_lt_Some; eauto).
      rewrite list_insert_insert_eq, (list_insert_id _ _ _ Hm). reflexivity. }
  now rewrite list_insert_insert_eq.
Qed.

Lemma handler_panic_keeps_count_witness :
  exec (mkState (mkStore scenarioA [false; false; false]) 1 [HEntry] [] [] false)
       (replicate (2 * length scenarioA + 5) (HandlerRuns 0 ServePanics))
  = Some (mkState
            (mkStore (<[1%nat := setActiveConnections
                                   (incrInt (ActiveConnections (backend 1 true 0)))
                                   (backend 1 true 0)]> scenarioA)
                     [false; false; false])
            1 (<[0%nat := HPanicked]> [HEntry]) [] [] false).
Proof.
  apply (handler_panic_keeps_count 1 [] [] 0 scenarioA
           [false; false; false] [HEntry] 1 (backend 1 true 0)).
  - split; [reflexivity|]. intros [|[|[|i]]] s Hs; simpl in Hs;
      try discriminate; now injection Hs as <-.
  - repeat constructor.
  - reflexivity.
  - reflexivity.
  - reflexivity.
Defined.

Lemma handler_solo_blocks_witness :
  exists st,
    exec (mkState (mkStore scenarioA [false; false; false]) 1 [HEntry] [] [] false)
         (replicate (2 * length scenarioA + 5) (HandlerRuns 0 ServeReturns))
    = Some st
    /\ handlers st !! 0%nat = Some (HRelock 1)
    /\ ActiveConnections <$> servers (store st) !! 1%nat
       = Some (incrInt (ActiveConnections (backend 1 true 0)))
    /\ forall r, step st (HandlerRuns 0 r) = None.
Proof.
  apply (handler_solo_blocks 1 [] [] 0 scenarioA
           [false; false; false] [HEntry] 1 (backend 1 true 0)).
  - split; [reflexivity|]. intros [|[|[|i]]] s Hs; simpl in Hs;
      try discriminate; now injection Hs as <-.
  - repeat constructor.
  - reflexivity.
  - reflexivity.
  - reflexivity.
Defined.

(** ** What can take the process down *)

Lemma scanStep_snd i s acc :
  snd (scanStep i s acc) = i \/ snd (scanStep i s acc) = snd acc.
Proof.
  unfold scanStep. destruct acc as [l b]. destruct (Healthy s); [|now right].
  destruct ((ActiveConnections s <? l) || (l =? -1)); [now left|now right].
Qed.

Lemma handlerStep_valid sigma pc r sigma' pc' logged :
  validHandler (length (servers sigma)) pc ->
  handlerStep sigma pc r = Moves sigma' pc' logged ->
  validHandler (length (servers sigma)) pc'.
Proof.
  intros Hv Hstep.
  destruct pc; simpl in Hstep, Hv;
    repeat match type of Hstep with
    | context [servers sigma !! ?b] =>
        let E := fresh "Hs" in
        destruct (servers sigma !! b) as [server|] eqn:E;
        [apply lookup_lt_Some in E|]
    | context [match servers sigma with _ => _ end] =>
        destruct (servers sigma) eqn:?
    | context [lockMutex ?m ?mu] => destruct (lockMutex m mu)
    | context [unlockMutex ?m ?mu] => destruct (unlockMutex m mu)
    | context [match r with _ => _ end] => destruct r
    end;
    try discriminate; injection Hstep as <- <- <-; simpl; try lia; try tauto.
  destruct (scanStep_snd i server acc) as [-> | ->]; lia.
Qed.

Lemma Valid_step st ev st' : Valid st -> step st ev = Some st' -> Valid st'.
Proof.
  intros [Hh Hl Hc] Hstep.
  destruct (step_frame _ _ _ Hstep) as (Hu & _).
  assert (Hn : length (servers (store st')) = length (servers (store st))).
  { rewrite <- (length_fmap URL), Hu. apply length_fmap. }
  unfold step in Hstep. destruct (crashed st); [discriminate|].
  destruct ev as [|t r|c g].
  - injection Hstep as <-. split; simpl; try assumption.
    apply Forall_app. split; [assumption|]. now repeat constructor.
  - destruct (handlers st !! t) as [pc|] eqn:Hpc; [|discriminate].
    destruct (handlerStep (store st) pc r) as [|sigma pc' logged|msg] eqn:Hs;
      [discriminate| |]; injection Hstep as <-; simpl in *.
    + split; simpl; rewrite ?Hn; try assumption.
      apply Forall_insert; [assumption|].
      eapply handlerStep_valid; [|exact Hs].
      rewrite Forall_lookup in Hh. exact (Hh _ _ Hpc).
    + now split.
  - destruct (checkers st !! c) as [pc|] eqn:Hpc; [|discriminate].
    destruct (checkerStep (interval st) (store st) c pc g)
      as [|sigma pc' logged|msg] eqn:Hs;
      [discriminate| |]; injection Hstep as <-; simpl in *.
    + split; simpl; rewrite ?Hn, ?length_insert; try assumption.
      apply Forall_insert; [assumption|].
      unfold checkerStep in Hs.
      destruct (servers (store st) !! c); [|discriminate].
      destruct pc as [|g0|g0|g0|];
        repeat match type of Hs with
        | context [lockMutex ?m ?mu] => destruct (lockMutex m mu)
        | context [unlockMutex ?m ?mu] => destruct (unlockMutex m mu)
        | context [getRes ?g] => destruct (getRes g) eqn:?
        | context [if ?b then _ else _] => destruct b
        | context [match ?o with Some _ => _ | None => _ end] => destruct o
        end;
        try discriminate; injection Hs as <- <- <-; simpl; try exact I;
        congruence.
    + now split.
Qed.

Lemma Valid_start d pool : Valid (startState d pool).
Proof. split; simpl; [constructor|apply length_replicate|].
  apply Forall_lookup. intros i pc Hpc.
  now apply lookup_replicate in Hpc as [-> _].
Qed.

Lemma Inv_checker_held st c pc :
  Inv st -> checkers st !! c = Some pc -> checkerHolds pc = true ->
  mutexes (store st) !! c = Some true.
Proof.
  intros HI Hpc Hh. pose proof (inv_mutex _ HI c) as Hm. unfold holders in Hm.
  rewrite Hpc, Hh in Hm.
  pose proof (countP_bounds (handlerHolds c) (handlers st)).
  destruct (mutexes (store st) !! c) as [[|]|]; try reflexivity; simpl in Hm; lia.
Qed.

(** X18: in every state the process reaches from [main], the only step
    that takes the process down is line 108 of a health checker whose
    probe came back without a response.  No handler ever unlocks a mutex
    that is not held or follows a pointer out of the pool, and a panic of
    a handler is not fatal. *)
Theorem crash_only_by_probe (env : Env) (st0 : State) (evs : list Event)
    (st : State) (ev : Event) (st' : State) :
  main env = Serving st0 ->
  exec st0 evs = Some st ->
  step st ev = Some st' ->
  crashed st' = true ->
  exists c g g0,
    ev = CheckerRuns c g
    /\ checkers st !! c = Some (CClose g0)
    /\ getRes g0 = None.
Proof.
  intros Hmain Hexec Hstep Hdead.
  destruct (main_fresh _ _ Hmain) as (d & pool & Hfresh & ->).
  pose proof (Inv_exec _ _ _ (Inv_start d pool Hfresh) Hexec) as HI.
  assert (HV : Valid st).
  { pose proof (Valid_start d pool) as HV0. clear Hmain Hfresh HI Hstep.
    revert Hexec HV0. generalize (startState d pool) as st1.
    induction evs as [|e evs IH]; intros st1 Hexec HV0; simpl in Hexec.
    - now injection Hexec as <-.
    - destruct (step st1 e) as [st2|] eqn:He; [|discriminate].
      apply (IH st2 Hexec). eapply Valid_step; eauto. }
  destruct HV as [Hvh Hvl Hvc].
  unfold step in Hstep. destruct (crashed st); [discriminate|].
  destruct ev as [|t r|c g].
  - injection Hstep as <-. discriminate.
  - exfalso.
    destruct (handlers st !! t) as [pc|] eqn:Hpc; [|discriminate].
    destruct (handlerStep (store st) pc r) as [|sigma pc' logged|msg] eqn:Hs;
      [discriminate|injection Hstep as <-; discriminate|].
    clear Hstep Hdead.
    pose proof (inv_relock _ HI) as Hr. rewrite Forall_lookup in Hr.
    specialize (Hr _ _ Hpc).
    rewrite Forall_lookup in Hvh. specialize (Hvh _ _ Hpc).
    pose proof (fun m => Inv_held st t pc m HI Hpc) as Hheld.
    pose proof (inv_wf _ HI) as Hwf.
    destruct pc; simpl in Hs, Hvh, Hr, Hheld; try discriminate;
      repeat match type of Hs with
      | context [match servers (store st) with _ => _ end] =>
          destruct (servers (store st))
      | context [servers (store st) !! ?b] =>
          let E := fresh "Hsv" in
          destruct (servers (store st) !! b) as [server|] eqn:E;
          [pose proof (wfStore_mu _ _ _ Hwf E) as Hmu; try rewrite Hmu in Hs
          |apply lookup_ge_None in E; try lia]
      | context [lockMutex ?m ?mu] => destruct (lockMutex m mu)
      | context [match r with _ => _ end] => destruct r
      end;
      try discriminate.
    + unfold unlockMutex in Hs.
      rewrite (Hheld i) in Hs by apply Nat.eqb_refl. discriminate.
    + unfold unlockMutex in Hs.
      rewrite (Hheld b) in Hs by apply Nat.eqb_refl. discriminate.
  - destruct (checkers st !! c) as [pc|] eqn:Hpc; [|discriminate].
    destruct (checkerStep (interval st) (store st) c pc g)
      as [|sigma pc' logged|msg] eqn:Hs;
      [discriminate|injection Hstep as <-; discriminate|].
    clear Hstep Hdead. unfold checkerStep in Hs.
    destruct (servers (store st) !! c) as [server|] eqn:Hsv.
    2:{ exfalso. apply lookup_ge_None in Hsv. apply lookup_lt_Some in Hpc. lia. }
    pose proof (wfStore_mu _ _ _ (inv_wf _ HI) Hsv) as Hmu.
    rewrite Forall_lookup in Hvc. specialize (Hvc _ _ Hpc).
    destruct pc as [|g0|g0|g0|]; simpl in Hvc.
    + destruct (0 <? interval st); discriminate.
    + destruct (lockMutex _ _); discriminate.
    + destruct (getRes g0) as [res|] eqn:Hres.
      * destruct (BodyCloseErr res); discriminate.
      * exists c, g, g0. now repeat split.
    + exfalso. destruct (getErr g0); [discriminate|].
      destruct (getRes g0); [|contradiction].
      destruct (StatusCode _ >=? 500); discriminate.
    + exfalso. unfold unlockMutex in Hs. rewrite Hmu in Hs.
      rewrite (Inv_checker_held st c CUnlock HI Hpc eq_refl) in Hs. discriminate.
Qed.

Lemma crash_only_by_probe_witness :
  exists c g g0,
    CheckerRuns 0 probeRefused = CheckerRuns c g
    /\ checkers refusedState !! c = Some (CClose g0)
    /\ getRes g0 = None.
Proof.
  apply (crash_only_by_probe onePoolEnv oneState
           (replicate 2 (CheckerRuns 0 probeRefused)) refusedState
           (CheckerRuns 0 probeRefused)
           (mkState (mkStore onePool [true]) 10000000000 []
                    [CClose probeRefused]
                    ["invalid memory address or nil pointer dereference"%string]
                    true)).
  all: vm_compute; reflexivity.
Defined.

(** ** After the first forwarding that returns *)

Lemma Valid_exec evs : forall st st',
  Valid st -> exec st evs = Some st' -> Valid st'.
Proof.
  induction evs as [|ev evs IH]; intros st st' HV Hexec; simpl in Hexec.
  - now injection Hexec as <-.
  - destruct (step st ev) as [st1|] eqn:Hstep; [|discriminate].
    eapply IH; [|exact Hexec]. eapply Valid_step; eauto.
Qed.

Lemma waits_step t b st ev st' :
  waits t b st -> step st ev = Some st' -> waits t b st'.
Proof.
  intros (HI & HV & Ht) Hstep. split; [eapply Inv_step; eauto|].
  split; [eapply Valid_step; eauto|]. eapply relock_stays; eauto.
Qed.

Lemma waits_held t b st : waits t b st ->
  mutexes (store st) !! b = Some true /\ (b < length (servers (store st)))%nat.
Proof.
  intros (HI & HV & Ht). split.
  - apply (Inv_held st t (HRelock b) b HI Ht). simpl. apply Nat.eqb_refl.
  - pose proof (valid_handlers _ HV) as Hv. rewrite Forall_lookup in Hv.
    exact (Hv _ _ Ht).
Qed.

(** A handler whose scan has not got past [b] does not get past it. *)
Lemma scansUpTo_step t b st r pc sigma pc' logged :
  waits t b st ->
  scansUpTo b pc ->
  handlerStep (store st) pc r = Moves sigma pc' logged ->
  scansUpTo b pc'.
Proof.
  intros Hw Hpc Hstep. destruct (waits_held t b st Hw) as [Hheld Hb].
  destruct Hw as (HI & _ & _). pose proof (inv_wf _ HI) as Hwf.
  destruct pc; simpl in Hpc, Hstep; try contradiction.
  - destruct (servers (store st)) as [|first rest] eqn:Hs; [simpl in Hb; lia|].
    injection Hstep as <- <- <-. simpl. lia.
  - destruct (servers (store st) !! i) as [server|] eqn:Hs.
    + destruct (lockMutex _ _) as [mu|] eqn:Hl; [|discriminate].
      injection Hstep as <- <- <-. apply lockMutex_Some in Hl as [Hfree _].
      rewrite (wfStore_mu _ _ _ Hwf Hs) in Hfree. simpl.
      assert (i <> b) by congruence. lia.
    + apply lookup_ge_None in Hs. lia.
  - destruct (servers (store st) !! i) as [server|]; [|discriminate].
    destruct (unlockMutex _ _); [|discriminate].
    injection Hstep as <- <- <-. simpl. lia.
Qed.

Lemma wedged_exec t b (n : nat) (evs : list Event) : forall st st',
  waits t b st ->
  (forall t' pc, (n <= t')%nat -> handlers st !! t' = Some pc -> scansUpTo b pc) ->
  exec st evs = Some st' ->
  waits t b st'
  /\ forall t' pc, (n <= t')%nat -> handlers st' !! t' = Some pc -> scansUpTo b pc.
Proof.
  induction evs as [|ev evs IH]; intros st st' Hw Hnew Hexec; simpl in Hexec.
  - injection Hexec as <-. now split.
  - destruct (step st ev) as [st1|] eqn:Hstep; [|discriminate].
    apply (IH st1 st'); [eapply waits_step; eauto| |exact Hexec].
    clear IH Hexec. intros t' pc Ht' Hpc.
    unfold step in Hstep. destruct (crashed st); [discriminate|].
    destruct ev as [|t2 r|c g].
    + injection Hstep as <-. simpl in Hpc. apply lookup_snoc_Some in Hpc.
      destruct Hpc as [[_ Hpc]|[_ <-]]; [eauto|exact I].
    + destruct (handlers st !! t2) as [pc2|] eqn:Hpc2; [|discriminate].
      destruct (handlerStep (store st) pc2 r) as [|sigma pc' logged|msg] eqn:Hh;
        [discriminate| |]; injection Hstep as <-; simpl in Hpc; [|eauto].
      apply list_lookup_insert_Some in Hpc.
      destruct Hpc as [(-> & <- & _)|[_ Hpc]]; [|eauto].
      eapply scansUpTo_step; eauto.
    + destruct (checkers st !! c); [|discriminate].
      destruct (checkerStep _ _ _ _ _); [discriminate| |];
        injection Hstep as <-; simpl in Hpc; eauto.
Qed.

(** X20: after the first forwarding that returns, no later request is
    served.  Once a handler waits at line 133 for the mutex of the server
    it chose, every handler of a request that arrives afterwards stays in
    the scan of [nextServerLeastActive], at or before that server: it
    never selects a server, never counts a connection and never forwards. *)
Theorem no_request_served_after_return (env : Env) (st0 : State)
    (evs1 : list Event) (st1 : State) (t b : nat) (evs2 : list Event)
    (st2 : State) (t' : nat) (pc : HandlerPc) :
  main env = Serving st0 ->
  exec st0 evs1 = Some st1 ->
  handlers st1 !! t = Some (HRelock b) ->
  exec st1 evs2 = Some st2 ->
  (length (handlers st1) <= t')%nat ->
  handlers st2 !! t' = Some pc ->
  scansUpTo b pc.
Proof.
  intros Hmain Hexec1 Ht Hexec2 Ht' Hpc.
  destruct (main_fresh _ _ Hmain) as (d & pool & Hfresh & ->).
  pose proof (Inv_exec _ _ _ (Inv_start d pool Hfresh) Hexec1) as HI1.
  pose proof (Valid_exec _ _ _ (Valid_start d pool) Hexec1) as HV1.
  destruct (wedged_exec t b (length (handlers st1)) evs2 st1 st2) as [_ Hnew];
    [exact (conj HI1 (conj HV1 Ht))| |exact Hexec2|eauto].
  intros t2 pc2 Hle Hpc2. apply lookup_lt_Some in Hpc2. lia.
Qed.

Lemma no_request_served_after_return_witness :
  scansUpTo 0 (HScanLock 0 (1, 0%nat)).
Proof.
  eapply (no_request_served_after_return twoPoolEnv twoState
            (solo 0 ServeReturns 9) _ 0%nat 0%nat
            [Request; HandlerRuns 1 ServeReturns] _ 1%nat).
  all: try match goal with
           | |- main _ = _ => vm_compute; reflexivity
           | |- exec twoState _ = _ => vm_compute; reflexivity
           end.
  all: try match goal with
           | |- exec _ _ = _ => vm_compute; reflexivity
           end.
  all: vm_compute; reflexivity.
Defined.

Lemma checkerStep_other iv sigma c pc g sigma' pc' logged j :
  checkerStep iv sigma c pc g = Moves sigma' pc' logged ->
  j <> c ->
  servers sigma' !! j = servers sigma !! j.
Proof.
  unfold checkerStep. intros Hstep Hj.
  destruct (servers sigma !! c) as [server|]; [|discriminate].
  destruct pc as [|g0|g0|g0|];
    repeat match type of Hstep with
    | context [lockMutex ?m ?mu] => destruct (lockMutex m mu)
    | context [unlockMutex ?m ?mu] => destruct (unlockMutex m mu)
    | context [if ?b then _ else _] => destruct b
    | context [match ?o with Some _ => _ | None => _ end] => destruct o
    end;
    try discriminate; injection Hstep as <- <- <-; cbn [servers];
    try reflexivity; now apply list_lookup_insert_ne.
Qed.

Lemma waits_Healthy t b st ev st' :
  waits t b st ->
  step st ev = Some st' ->
  Healthy <$> servers (store st') !! b = Healthy <$> servers (store st) !! b.
Proof.
  intros Hw Hstep. destruct (waits_held t b st Hw) as [Hheld Hb].
  destruct Hw as (HI & HV & Ht).
  destruct (step_frame _ _ _ Hstep) as (_ & _ & _ & _ & Hkeep & _).
  destruct ev as [|t2 r|c g];
    try (rewrite <- !list_lookup_fmap, (Hkeep eq_refl); reflexivity).
  clear Hkeep. unfold step in Hstep. destruct (crashed st); [discriminate|].
  destruct (checkers st !! c) as [pc|] eqn:Hpc; [|discriminate].
  destruct (checkerStep (interval st) (store st) c pc g)
    as [|sigma pc' logged|msg] eqn:Hc; [discriminate| |];
    injection Hstep as <-; simpl; [|reflexivity].
  destruct (decide (b = c)) as [<-|Hne];
    [|now rewrite (checkerStep_other _ _ _ _ _ _ _ _ b Hc)].
  assert (Hfree : checkerHolds pc = false).
  { pose proof (inv_mutex _ HI b) as Hm. unfold holders in Hm.
    rewrite Hpc, Hheld in Hm.
    pose proof (countP_insert (handlerHolds b) _ _ _ HEntry Ht) as Hcount.
    pose proof (countP_bounds (handlerHolds b) (<[t := HEntry]> (handlers st))).
    simpl in Hcount. rewrite Nat.eqb_refl in Hcount. simpl in Hcount.
    destruct (checkerHolds pc); [simpl in Hm; lia|reflexivity]. }
  unfold checkerStep in Hc.
  destruct (servers (store st) !! b) as [server|] eqn:Hs; [|discriminate].
  destruct pc as [|g0|g0|g0|]; try discriminate.
  - destruct (0 <? interval st); [|discriminate]. injection Hc as <- <- <-.
    now rewrite Hs.
  - destruct (lockMutex _ _) as [mu|] eqn:Hl; [|discriminate].
    apply lockMutex_Some in Hl as [Hl _].
    rewrite (wfStore_mu _ _ _ (inv_wf _ HI) Hs) in Hl. congruence.
Qed.

(** X21: after the first forwarding that returns, the health of the
    server that was chosen is frozen: the mutex its health checker needs
    at line 106 is never given back, so whatever its probes answer, its
    [Healthy] flag never changes again. *)
Theorem health_frozen_after_return (env : Env) (st0 : State)
    (evs1 : list Event) (st1 : State) (t b : nat) (evs2 : list Event)
    (st2 : State) :
  main env = Serving st0 ->
  exec st0 evs1 = Some st1 ->
  handlers st1 !! t = Some (HRelock b) ->
  exec st1 evs2 = Some st2 ->
  Healthy <$> servers (store st2) !! b = Healthy <$> servers (store st1) !! b.
Proof.
  intros Hmain Hexec1 Ht Hexec2.
  destruct (main_fresh _ _ Hmain) as (d & pool & Hfresh & ->).
  pose proof (Inv_exec _ _ _ (Inv_start d pool Hfresh) Hexec1) as HI1.
  pose proof (Valid_exec _ _ _ (Valid_start d pool) Hexec1) as HV1.
  assert (Hw : waits t b st1) by exact (conj HI1 (conj HV1 Ht)).
  clear Hexec1 HI1 HV1 Ht Hmain Hfresh.
  revert st1 Hw Hexec2.
  induction evs2 as [|ev evs2 IH]; intros st1 Hw Hexec2; simpl in Hexec2.
  - now injection Hexec2 as <-.
  - destruct (step st1 ev) as [st|] eqn:Hstep; [|discriminate].
    rewrite (IH st (waits_step _ _ _ _ _ Hw Hstep) Hexec2).
    eapply waits_Healthy; eauto.
Qed.

Lemma health_frozen_after_return_witness :
  exists st1 st2,
    exec twoState (solo 0 ServeReturns 9) = Some st1
    /\ exec st1 [CheckerRuns 0 (probeStatus 500); CheckerRuns 1 (probeStatus 500)]
       = Some st2
    /\ Healthy <$> servers (store st2) !! 0%nat
       = Healthy <$> servers (store st1) !! 0%nat.
Proof.
  eexists. eexists. split; [vm_compute; reflexivity|].
  split; [vm_compute; reflexivity|].
  eapply (health_frozen_after_return twoPoolEnv twoState (solo 0 ServeReturns 9) _
            0%nat 0%nat [CheckerRuns 0 (probeStatus 500);
                         CheckerRuns 1 (probeStatus 500)]).
  all: vm_compute; reflexivity.
Defined.
